(** * SmartThings / Spotify adapter: identity codec, device enumeration
      and the three request handlers of [src/index.ts].

    The development follows the source file top to bottom: JavaScript
    values and strings first, then the two codec functions, the device
    enumerator, and the discovery, state-refresh and command handlers. *)

From Stdlib Require Import Ascii String.
From stdpp Require Import base option list strings.

Local Open Scope string_scope.
Local Open Scope list_scope.
Local Open Scope stdpp_scope.

(** ** JavaScript strings and values *)

(** A JavaScript string is held as the bytes of its UTF-8 encoding, one
    [ascii] per byte.  The only separator the code cuts at is the ASCII
    character ["|"], whose byte never occurs inside the encoding of
    another character, so cutting the bytes is cutting the string. *)

Module Js.

(** A value of TypeScript type [string] that may, at run time, also be
    [null] or [undefined] (an array read out of range, a nullable
    field of a provider record). *)
Inductive value : Type :=
| Str (s : string)
| Null
| Undefined.

#[global] Instance value_eq_dec : EqDecision value.
Proof. solve_decision. Defined.

(** U+00A0 NO-BREAK SPACE, the character that follows [on] in the
    template literal of the display name: the bytes C2 A0. *)
Definition nbsp : string :=
  String (ascii_of_nat 194) (String (ascii_of_nat 160) EmptyString).

(** [ToString], as applied to the holes of a template literal. *)
Definition toString (v : value) : string :=
  match v with
  | Str s => s
  | Null => "null"
  | Undefined => "undefined"
  end.

(** [!!v]: the empty string, [null] and [undefined] are falsy. *)
Definition truthy (v : value) : bool :=
  match v with
  | Str s => negb (String.eqb s "")
  | Null | Undefined => false
  end.

(** All the pieces of [s] between occurrences of the one-character
    separator [sep]; the empty string gives the single piece [""]. *)
Fixpoint pieces (sep : ascii) (s : string) : list string :=
  match s with
  | EmptyString => [EmptyString]
  | String c s' =>
      if Ascii.eqb c sep then EmptyString :: pieces sep s'
      else match pieces sep s' with
           | x :: xs => String c x :: xs
           | [] => [String c EmptyString]
           end
  end.

(** [s.split(sep, limit)] for a separator of length one: the array of
    pieces, cut after [limit] entries (the rest of the string is not
    kept in the last entry). *)
Definition split (sep : ascii) (limit : nat) (s : string) : list string :=
  take limit (pieces sep s).

(** [a[i]] on an array of strings: [undefined] out of range. *)
Definition index (a : list string) (i : nat) : value :=
  match a !! i with
  | Some s => Str s
  | None => Undefined
  end.

(** Number of occurrences of a character, and its absence. *)
Fixpoint occurrences (c : ascii) (s : string) : nat :=
  match s with
  | EmptyString => 0
  | String c' s' => (if Ascii.eqb c' c then 1 else 0) + occurrences c s'
  end.

Definition free_of (c : ascii) (s : string) : Prop := occurrences c s = 0.

(** The part of [s] before the first [c] (all of [s] when there is
    none) and the part after it (empty when there is none). *)
Fixpoint before (c : ascii) (s : string) : string :=
  match s with
  | EmptyString => EmptyString
  | String c' s' => if Ascii.eqb c' c then EmptyString else String c' (before c s')
  end.

Fixpoint after (c : ascii) (s : string) : string :=
  match s with
  | EmptyString => EmptyString
  | String c' s' => if Ascii.eqb c' c then s' else after c s'
  end.

End Js.

Import Js.

(** ** Identity codec *)

(** The delimiter of the external id. *)
Definition delimiter : ascii := "|"%char.

(** [interface PlaylistDeviceId].  The fields are declared [string]; the
    decoder fills them from array reads, so they hold [Js.value]s. *)
Record PlaylistDeviceId : Type := {
  deviceId : Js.value;
  playlistUri : Js.value
}.

#[global] Instance PlaylistDeviceId_eq_dec : EqDecision PlaylistDeviceId.
Proof. solve_decision. Defined.

(** [interface PlaylistDevice]. *)
Record PlaylistDevice : Type := {
  id : PlaylistDeviceId;
  name : string;
  model : string
}.

(** [externalIdToPlaylistDeviceId]: [externalId.split("|", 2)], then the
    entries 0 and 1 of the array. *)
Definition externalIdToPlaylistDeviceId (externalId : string) : PlaylistDeviceId :=
  let split := Js.split delimiter 2 externalId in
  {| deviceId := Js.index split 0;
     playlistUri := Js.index split 1 |}.

(** [playlistDeviceIdToExternalId]: the template literal
    [`${deviceId}|${playlistUri}`]. *)
Definition playlistDeviceIdToExternalId (playlistDeviceId : PlaylistDeviceId) : string :=
  Js.toString (deviceId playlistDeviceId) +:+ "|" +:+ Js.toString (playlistUri playlistDeviceId).

(** The decoder as the specification words it: cut at the first
    delimiter, the prefix is the playback target and the whole remainder
    is the queue. *)
Definition decode_at_first_delimiter (externalId : string) : PlaylistDeviceId :=
  {| deviceId := Str (Js.before delimiter externalId);
     playlistUri := Str (Js.after delimiter externalId) |}.

(** ** The provider client *)

(** An error value thrown by the provider client. *)
Definition Error : Type := string.

(** A settled promise: fulfilled with a value or rejected with an error.
    Code that awaits promises one after the other is written in this
    monad; a rejection skips the rest of the function. *)
Inductive Settled (A : Type) : Type :=
| Fulfilled (a : A)
| Rejected (e : Error).
Arguments Fulfilled {A} a.
Arguments Rejected {A} e.

#[global] Instance Settled_ret : MRet Settled := fun A a => Fulfilled a.
#[global] Instance Settled_bind : MBind Settled := fun A B k p =>
  match p with
  | Fulfilled a => k a
  | Rejected e => Rejected e
  end.

(** The place of a provider action call inside a command batch: the
    index of the device request and of the command within it. *)
Definition CallSite : Type := nat * nat.

Module Spotify.

(** One entry of [getMyDevices().body.devices]; [id] is nullable. *)
Record Device : Type := {
  device_id : Js.value;
  device_name : string;
  device_type : string
}.

(** One entry of [getUserPlaylists().body.items]. *)
Record Playlist : Type := {
  playlist_uri : string;
  playlist_name : string
}.

(** [getMyCurrentPlaybackState().body]. *)
Record PlaybackState : Type := {
  is_playing : bool
}.

Record PlayOptions : Type := {
  context_uri : Js.value;
  device_id_play : Js.value
}.

Record PauseOptions : Type := {
  device_id_pause : Js.value
}.

(** The methods of [SpotifyWebApi] the adapter calls, each given by
    the settlement of the promise it returns.  The three reads are
    called at most once per invocation.  The provider is remote and
    stateful, so two action calls with the same arguments may settle
    differently: an action method is also told the site of the call. *)
Record WebApi : Type := {
  getMyDevices : Settled (list Device);
  getUserPlaylists : Settled (list Playlist);
  getMyCurrentPlaybackState : Settled PlaybackState;
  play : CallSite -> PlayOptions -> Settled unit;
  pause : CallSite -> PauseOptions -> Settled unit;
  skipToNext : CallSite -> Settled unit;
  skipToPrevious : CallSite -> Settled unit
}.

(** A provider action call, as a value. *)
Inductive Call : Type :=
| Play (o : PlayOptions)
| Pause (o : PauseOptions)
| SkipToNext
| SkipToPrevious.

Definition perform (spotify : WebApi) (site : CallSite) (c : Call) : Settled unit :=
  match c with
  | Play o => play spotify site o
  | Pause o => pause spotify site o
  | SkipToNext => skipToNext spotify site
  | SkipToPrevious => skipToPrevious spotify site
  end.

End Spotify.

(** ** The platform's response objects *)

(** Modelled from the spec: the discovery response of the platform SDK
    ([st-schema], not part of the sources).  [addDevice] registers one
    announcement and hands back the device, whose setters
    [manufacturerName] and [modelName] update it in place. *)
Module Discovery.

Record Device : Type := {
  externalDeviceId : string;
  friendlyName : string;
  deviceHandlerType : string;
  manufacturer : option string;
  modelName_ : option string
}.

Abbreviation Response := (list Device).

Definition addDevice (externalId friendly profile : string) (response : Response)
  : nat * Response :=
  (length response,
   response ++ [ {| externalDeviceId := externalId; friendlyName := friendly;
                    deviceHandlerType := profile;
                    manufacturer := None; modelName_ := None |} ]).

Definition manufacturerName (device : nat) (v : string) (response : Response)
  : nat * Response :=
  (device,
   alter (fun d => {| externalDeviceId := externalDeviceId d; friendlyName := friendlyName d;
                      deviceHandlerType := deviceHandlerType d;
                      manufacturer := Some v; modelName_ := modelName_ d |}) device response).

Definition modelName (device : nat) (v : string) (response : Response)
  : nat * Response :=
  (device,
   alter (fun d => {| externalDeviceId := externalDeviceId d; friendlyName := friendlyName d;
                      deviceHandlerType := deviceHandlerType d;
                      manufacturer := manufacturer d; modelName_ := Some v |}) device response).

End Discovery.

(** Modelled from the spec: the state-refresh and command responses of
    the platform SDK.  [addDevice] registers a device entry with its
    initial states, [addComponent] a named sub-component of it, and
    [addState] appends one (capability, attribute, value) state under
    that component to the states of the device. *)
Module State.

Inductive Value : Type :=
| Text (s : string)
| Texts (l : list string).

Record Entry : Type := {
  component : string;
  capability : string;
  attribute : string;
  value : Value
}.

Record Device : Type := {
  externalDeviceId : string;
  components : list string;
  states : list Entry
}.

Abbreviation Response := (list Device).

(** A component handle: the device it belongs to and its name. *)
Definition Component : Type := nat * string.

Definition addDevice (externalId : string) (initial : list Entry) (response : Response)
  : nat * Response :=
  (length response,
   response ++ [ {| externalDeviceId := externalId; components := []; states := initial |} ]).

Definition addComponent (device : nat) (name : string) (response : Response)
  : Component * Response :=
  ((device, name),
   alter (fun d => {| externalDeviceId := externalDeviceId d;
                      components := components d ++ [name];
                      states := states d |}) device response).

Definition addState (c : Component) (cap attr : string) (v : Value) (response : Response)
  : Response :=
  alter (fun d => {| externalDeviceId := externalDeviceId d;
                     components := components d;
                     states := states d ++ [ {| component := c.2; capability := cap;
                                                attribute := attr; value := v |} ] |})
        c.1 response.

End State.

(** ** Requests *)

Record Command : Type := {
  capability : string;
  command : string
}.

Record DeviceRequest : Type := {
  externalDeviceId : string;
  commands : list Command
}.

Record Authentication : Type := {
  token : string
}.

(** The three intents the dispatcher routes on. *)
Inductive InteractionType : Type :=
| DiscoveryRequest
| StateRefreshRequest
| CommandRequest.

Record Request : Type := {
  interactionType : InteractionType;
  authentication : Authentication;
  devices : list DeviceRequest
}.

(** ** Promises of the command handler *)

(** The promise of one [async (command) => ...] callback.  The callback
    awaits at most one provider call: its promise is either already
    settled, or suspended at that call with the rest of the body, which
    takes the settlement of the call, works on the response and settles
    the promise. *)
Inductive Promise : Type :=
| Done (r : Settled unit)
| Pending (call : Spotify.Call)
          (resume : Settled unit -> State.Response -> State.Response * Settled unit).

Definition isDone (p : Promise) : bool :=
  match p with
  | Done _ => true
  | Pending _ _ => false
  end.

(** The call a suspended promise waits for. *)
Definition awaited (p : Promise) : option Spotify.Call :=
  match p with
  | Done _ => None
  | Pending call _ => Some call
  end.

(** The state of one run of the command handler: the response object,
    the promises of the command callbacks (one row per device request),
    the provider calls made so far with their sites, and the first
    rejection seen by [Promise.all], if any. *)
Record Batch : Type := {
  response : State.Response;
  promises : list (list Promise);
  calls : list (CallSite * Spotify.Call);
  rejection : option Error
}.

(** The provider calls made by the callbacks of row [i], in order. *)
Definition rowCalls (i : nat) (row : list Promise) : list (CallSite * Spotify.Call) :=
  omap (fun '(j, p) => call ← awaited p; Some ((i, j), call)) (imap pair row).

(** The promise of the callback at a site, if there is one. *)
Definition promiseAt (b : Batch) (site : CallSite) : option Promise :=
  promises b !! site.1 ≫= (fun row => row !! site.2).

(** The provider calls made from a site. *)
Definition callsAt (site : CallSite) (b : Batch) : list Spotify.Call :=
  (filter (fun x => x.1 = site) (calls b)).*2.

(** ** Request dispatcher *)

(** What the transport sends back: a status code and a body, which is
    the serialised response or error (kept here as the value that
    [JSON.stringify] is applied to). *)
Inductive Payload : Type :=
| DiscoveryPayload (r : Discovery.Response)
| StatePayload (r : State.Response)
| ErrorPayload (e : Error).

Record Result : Type := {
  statusCode : nat;
  body : Payload
}.

(** Modelled from the spec: the [lambda] dispatcher of the platform SDK
    ([st-schema], not part of the sources).  The interaction type
    selects the handler, which is given the request and a fresh
    response; when the handler completes the response goes to [succeed],
    when it fails the error goes to [fail]; while the handler's promise
    is unsettled neither is called. *)
Definition lambda
    (discovery : Request -> Discovery.Response -> Settled Discovery.Response)
    (command_ : Request -> State.Response -> option (Settled State.Response))
    (stateRefresh : Request -> State.Response -> Settled State.Response)
    (request : Request) (succeed fail : Payload -> Result) : option Result :=
  match interactionType request with
  | DiscoveryRequest =>
      match discovery request [] with
      | Fulfilled r => Some (succeed (DiscoveryPayload r))
      | Rejected e => Some (fail (ErrorPayload e))
      end
  | StateRefreshRequest =>
      match stateRefresh request [] with
      | Fulfilled r => Some (succeed (StatePayload r))
      | Rejected e => Some (fail (ErrorPayload e))
      end
  | CommandRequest =>
      match command_ request [] with
      | Some (Fulfilled r) => Some (succeed (StatePayload r))
      | Some (Rejected e) => Some (fail (ErrorPayload e))
      | None => None
      end
  end.

Section Adapter.

(** What the provider does for the holder of an access token. *)
Variable provider : string -> Spotify.WebApi.

(** [getSpotify]: a client carrying the token of the request. *)
Definition getSpotify (request : Request) : Spotify.WebApi :=
  provider (token (authentication request)).

(** ** Device enumerator *)

Definition getPlaylistDevices (spotify : Spotify.WebApi) : Settled (list PlaylistDevice) :=
  spotifyDevices ← Spotify.getMyDevices spotify;
  playlists ← Spotify.getUserPlaylists spotify;
  let result : list PlaylistDevice := [] in
  mret (
    foldl (fun result spotifyDevice =>
      foldl (fun result playlist =>
        result ++ [ {| id := {| deviceId := Spotify.device_id spotifyDevice;
                                playlistUri := Str (Spotify.playlist_uri playlist) |};
                       name := "Playlist " +:+ Spotify.playlist_name playlist
                               +:+ " on" +:+ Js.nbsp +:+ Spotify.device_name spotifyDevice;
                       model := Spotify.device_type spotifyDevice |} ])
        result playlists)
      result
      (List.filter (fun spotifyDevice =>
                      String.eqb (Spotify.device_name spotifyDevice) "Mobile Web Player")
         (List.filter (fun spotifyDevice => Js.truthy (Spotify.device_id spotifyDevice))
            spotifyDevices))).

(** ** Discovery handler *)

Definition discoveryRequest (request : Request) (response : Discovery.Response)
  : Settled Discovery.Response :=
  let spotify := getSpotify request in
  playlistDevices ← getPlaylistDevices spotify;
  mret (
    foldl (fun response playlistDevice =>
      let id := playlistDeviceIdToExternalId (id playlistDevice) in
      let '(device, response) :=
        Discovery.addDevice id (name playlistDevice)
          "0284c595-fed5-4b00-9e02-6e85bb3b32fb" response in
      let '(device, response) := Discovery.manufacturerName device "Spotify" response in
      let '(_, response) := Discovery.modelName device (model playlistDevice) response in
      response)
      response playlistDevices).

(** ** State-refresh handler *)

Definition stateRefreshRequest (request : Request) (response : State.Response)
  : Settled State.Response :=
  let spotify := getSpotify request in
  playlistDevices ← getPlaylistDevices spotify;
  playbackState ← Spotify.getMyCurrentPlaybackState spotify;
  mret (
    foldl (fun response playlistDevice =>
      let id := playlistDeviceIdToExternalId (id playlistDevice) in
      let '(_, response) :=
        State.addDevice id
          [ {| State.component := "main";
               State.capability := "st.mediaPlayback";
               State.attribute := "supportedPlaybackCommands";
               State.value := State.Texts ["pause"; "play"; "fastForward"; "rewind"] |};
            {| State.component := "main";
               State.capability := "st.mediaPlayback";
               State.attribute := "playbackStatus";
               State.value :=
                 State.Text (if Spotify.is_playing playbackState
                             then "playing" else "paused") |} ]
          response in
      response)
      response playlistDevices).

(** ** Command handler *)

(** The callback [async (command) => { switch ... }] up to its first
    [await].  A rejected [play] leaves the callback by the exception;
    the other three calls sit in a [try]/[catch] that only logs. *)
Definition commandCallback (component : State.Component)
    (playlistDeviceId : PlaylistDeviceId) (command_ : Command) : Promise :=
  if String.eqb (capability command_) "st.mediaPlayback" then
    if String.eqb (command command_) "play" then
      Pending
        (Spotify.Play {| Spotify.context_uri := playlistUri playlistDeviceId;
                         Spotify.device_id_play := deviceId playlistDeviceId |})
        (fun settled response =>
           match settled with
           | Fulfilled _ =>
               (State.addState component (capability command_) "playbackStatus"
                  (State.Text "playing") response,
                Fulfilled tt)
           | Rejected e => (response, Rejected e)
           end)
    else if String.eqb (command command_) "pause" then
      Pending
        (Spotify.Pause {| Spotify.device_id_pause := deviceId playlistDeviceId |})
        (fun _ response =>
           (State.addState component (capability command_) "playbackStatus"
              (State.Text "paused") response,
            Fulfilled tt))
    else if String.eqb (command command_) "fastForward" then
      Pending Spotify.SkipToNext
        (fun _ response =>
           (State.addState component (capability command_) "playbackStatus"
              (State.Text "playing") response,
            Fulfilled tt))
    else if String.eqb (command command_) "rewind" then
      Pending Spotify.SkipToPrevious
        (fun _ response =>
           (State.addState component (capability command_) "playbackStatus"
              (State.Text "playing") response,
            Fulfilled tt))
    else Done (Fulfilled tt)
  else Done (Fulfilled tt).

(** The callback [async (deviceRequest) => ...] up to its [await]: it
    registers the device and its component, decodes the id and starts
    the command callbacks, each of which makes its provider call. *)
Definition deviceCallback (b : Batch) (deviceRequest : DeviceRequest) : Batch :=
  let externalId := externalDeviceId deviceRequest in
  let '(device, response) := State.addDevice externalId [] (response b) in
  let '(component, response) := State.addComponent device "main" response in
  let playlistDeviceId := externalIdToPlaylistDeviceId externalId in
  let row := commandCallback component playlistDeviceId <$> commands deviceRequest in
  {| response := response;
     promises := promises b ++ [row];
     calls := calls b ++ rowCalls (length (promises b)) row;
     rejection := rejection b |}.

(** [request.devices.map(...)]: every callback runs to its first
    suspension before any provider promise settles. *)
Definition launch (request : Request) (response : State.Response) : Batch :=
  foldl deviceCallback
    {| response := response; promises := []; calls := []; rejection := None |}
    (devices request).

(** The provider promise awaited at [site] settles: the callback
    resumes, and a rejection of its promise rejects both [Promise.all]s
    unless they are rejected already.  A site that awaits nothing
    (settled before, or no such callback) is left alone. *)
Definition settle (spotify : Spotify.WebApi) (b : Batch) (site : CallSite) : Batch :=
  match promiseAt b site with
  | Some (Pending call resume) =>
      let '(response, settled) := resume (Spotify.perform spotify site call) (response b) in
      {| response := response;
         promises := alter (fun row => <[site.2 := Done settled]> row) site.1 (promises b);
         calls := calls b;
         rejection := match rejection b, settled with
                      | None, Rejected e => Some e
                      | old, _ => old
                      end |}
  | _ => b
  end.

(** [commandRequest]: the batch after the provider promises have
    settled in the order [schedule]. *)
Definition commandRequest (schedule : list CallSite)
    (request : Request) (response : State.Response) : Batch :=
  let spotify := getSpotify request in
  foldl (settle spotify) (launch request response) schedule.

(** The promise of the handler: rejected with the first rejection,
    fulfilled once every callback is done, unsettled otherwise. *)
Definition outcome (b : Batch) : option (Settled State.Response) :=
  match rejection b with
  | Some e => Some (Rejected e)
  | None =>
      if forallb (forallb isDone) (promises b)
      then Some (Fulfilled (response b))
      else None
  end.

(** [promiseHandler]: the dispatcher over the three handlers, with
    [succeed] answering 200 and [fail] answering 500. *)
Definition promiseHandler (schedule : list CallSite) (body_ : Request) : option Result :=
  lambda discoveryRequest
    (fun request response => outcome (commandRequest schedule request response))
    stateRefreshRequest
    body_
    (fun response => {| statusCode := 200; body := response |})
    (fun response => {| statusCode := 500; body := response |}).

End Adapter.

(** A schedule is complete for a batch when every suspended callback of
    the batch is resumed by it. *)
Definition complete (schedule : list CallSite) (b : Batch) : Prop :=
  forall site call, (site, call) ∈ calls b -> site ∈ schedule.

(** The selection filter of the enumerator as the specification words
    it: the target exposes a non-empty id and its name is the configured
    one. *)
Definition selected (d : Spotify.Device) : bool :=
  Js.truthy (Spotify.device_id d) && String.eqb (Spotify.device_name d) "Mobile Web Player".

(** The virtual device of one playback target and one playlist, and the
    cross product of targets (outer) and playlists (inner). *)
Definition playlistDevice (d : Spotify.Device) (p : Spotify.Playlist) : PlaylistDevice :=
  {| id := {| deviceId := Spotify.device_id d; playlistUri := Str (Spotify.playlist_uri p) |};
     name := "Playlist " +:+ Spotify.playlist_name p +:+ " on" +:+ Js.nbsp +:+ Spotify.device_name d;
     model := Spotify.device_type d |}.

Definition crossProduct (ds : list Spotify.Device) (ps : list Spotify.Playlist)
  : list PlaylistDevice :=
  d ← ds; playlistDevice d <$> ps.

(** The announcement the discovery handler registers for a virtual
    device, and the two states the state-refresh handler reports. *)
Definition announcement (d : PlaylistDevice) : Discovery.Device :=
  {| Discovery.externalDeviceId := playlistDeviceIdToExternalId (id d);
     Discovery.friendlyName := name d;
     Discovery.deviceHandlerType := "0284c595-fed5-4b00-9e02-6e85bb3b32fb";
     Discovery.manufacturer := Some "Spotify";
     Discovery.modelName_ := Some (model d) |}.

Definition supportedPlaybackCommands : State.Entry :=
  {| State.component := "main"; State.capability := "st.mediaPlayback";
     State.attribute := "supportedPlaybackCommands";
     State.value := State.Texts ["pause"; "play"; "fastForward"; "rewind"] |}.

Definition playbackStatus (status : string) : State.Entry :=
  {| State.component := "main"; State.capability := "st.mediaPlayback";
     State.attribute := "playbackStatus"; State.value := State.Text status |}.

(** The rows of the dispatch table, as the specification lists them:
    a command is dispatched when it matches one of the four rows, it is
    tolerated when it matches one of the three whose failure is caught,
    and [optimisticStatus] is the status reported for a tolerated one. *)
Definition isPlay (c : Command) : bool :=
  String.eqb (capability c) "st.mediaPlayback" && String.eqb (command c) "play".

Definition tolerated (c : Command) : bool :=
  String.eqb (capability c) "st.mediaPlayback" &&
  (String.eqb (command c) "pause" || String.eqb (command c) "fastForward"
   || String.eqb (command c) "rewind").

Definition dispatched (c : Command) : bool := isPlay c || tolerated c.

Definition optimisticStatus (c : Command) : string :=
  if String.eqb (command c) "pause" then "paused" else "playing".

(** What the platform is told about who answers: for every entry of a
    response, the external id it is addressed by and its components. *)
Definition addressed (r : State.Response) : list (string * list string) :=
  (fun d => (State.externalDeviceId d, State.components d)) <$> r.

(** [d] with [extra] appended to its states. *)
Definition withStates (extra : list State.Entry) (d : State.Device) : State.Device :=
  {| State.externalDeviceId := State.externalDeviceId d;
     State.components := State.components d;
     State.states := State.states d ++ extra |}.

(** What the synchronous part of the device callback leaves behind for
    a device request whose entry has handle [h]: the entry, and the row
    of command promises. *)
Definition launchedEntry (d : DeviceRequest) : State.Device :=
  {| State.externalDeviceId := externalDeviceId d;
     State.components := ["main"];
     State.states := [] |}.

Definition launchedRow (h : nat) (d : DeviceRequest) : list Promise :=
  commandCallback (h, "main") (externalIdToPlaylistDeviceId (externalDeviceId d))
    <$> commands d.

(** A promise of a callback whose component belongs to the entry with
    handle [h] only ever appends states to that entry when it resumes. *)
Definition appendsTo (h : nat) (p : Promise) : Prop :=
  match p with
  | Done _ => True
  | Pending _ resume =>
      forall settled r, exists extra, (resume settled r).1 = alter (withStates extra) h r
  end.

(** The invariant of a run started on a fresh response: the callbacks
    of row [i] append to entry [i]. *)
Definition rowsAppend (b : Batch) : Prop :=
  forall i row, promises b !! i = Some row -> Forall (appendsTo i) row.

(** A site at which no callback is suspended. *)
Definition idle (o : option Promise) : Prop :=
  match o with
  | Some (Pending _ _) => False
  | _ => True
  end.

(** A promise that cannot reject when resumed at [site] against the
    provider [spotify]. *)
Definition quiet (spotify : Spotify.WebApi) (site : CallSite) (p : Promise) : Prop :=
  match p with
  | Done _ => True
  | Pending call resume =>
      forall r, (resume (Spotify.perform spotify site call) r).2 = Fulfilled tt
  end.

Definition allQuiet (spotify : Spotify.WebApi) (b : Batch) : Prop :=
  forall site p, promiseAt b site = Some p -> quiet spotify site p.

(** The options of the [play] call for a decoded id. *)
Definition playOptions (pid : PlaylistDeviceId) : Spotify.PlayOptions :=
  {| Spotify.context_uri := playlistUri pid; Spotify.device_id_play := deviceId pid |}.

(** The end-to-end scenario: one device ["dev1|ctx1"], one [pause]. *)
Definition pauseScenario : Request :=
  {| interactionType := CommandRequest;
     authentication := {| token := "token" |};
     devices := [ {| externalDeviceId := "dev1|ctx1";
                     commands := [ {| capability := "st.mediaPlayback";
                                      command := "pause" |} ] |} ] |}.

(** ** Sample inventory and providers *)

Definition sampleDevices : list Spotify.Device :=
  [ {| Spotify.device_id := Str "dev1"; Spotify.device_name := "Mobile Web Player";
       Spotify.device_type := "Smartphone" |};
    {| Spotify.device_id := Null; Spotify.device_name := "Mobile Web Player";
       Spotify.device_type := "Computer" |};
    {| Spotify.device_id := Str "dev3"; Spotify.device_name := "Kitchen";
       Spotify.device_type := "Speaker" |} ].

Definition samplePlaylists : list Spotify.Playlist :=
  [ {| Spotify.playlist_uri := "spotify:playlist:a"; Spotify.playlist_name := "Morning" |};
    {| Spotify.playlist_uri := "spotify:playlist:b"; Spotify.playlist_name := "Evening" |} ].

(** A provider that reports the sample inventory and the given playing
    flag, and rejects every action call. *)
Definition failingProvider (playing : bool) (token_ : string) : Spotify.WebApi :=
  {| Spotify.getMyDevices := Fulfilled sampleDevices;
     Spotify.getUserPlaylists := Fulfilled samplePlaylists;
     Spotify.getMyCurrentPlaybackState := Fulfilled {| Spotify.is_playing := playing |};
     Spotify.play := fun _ _ => Rejected "play failed";
     Spotify.pause := fun _ _ => Rejected "pause failed";
     Spotify.skipToNext := fun _ => Rejected "next failed";
     Spotify.skipToPrevious := fun _ => Rejected "previous failed" |}.

Definition playCommand : Command :=
  {| capability := "st.mediaPlayback"; command := "play" |}.

Definition pauseCommand : Command :=
  {| capability := "st.mediaPlayback"; command := "pause" |}.

Definition dimCommand : Command :=
  {| capability := "st.switchLevel"; command := "setLevel" |}.

Definition sampleBatch : Request :=
  {| interactionType := CommandRequest;
     authentication := {| token := "token" |};
     devices := [ {| externalDeviceId := "dev1|ctx1";
                     commands := [playCommand; pauseCommand; dimCommand] |} ] |}.

Definition discoveryEnvelope : Request :=
  {| interactionType := DiscoveryRequest;
     authentication := {| token := "token" |};
     devices := [] |}.

(** ** The dispatch table, call by call *)

(** The provider call the switch of the command callback leads to. *)
Definition callOf (pid : PlaylistDeviceId) (c : Command) : option Spotify.Call :=
  if isPlay c then Some (Spotify.Play (playOptions pid))
  else if tolerated c then
    if String.eqb (command c) "pause"
    then Some (Spotify.Pause {| Spotify.device_id_pause := deviceId pid |})
    else if String.eqb (command c) "fastForward" then Some Spotify.SkipToNext
    else Some Spotify.SkipToPrevious
  else None.

(** The states the callback of command [c] launched at [site] appends
    when its provider call settles. *)
Definition recorded (spotify : Spotify.WebApi) (site : CallSite)
    (pid : PlaylistDeviceId) (c : Command) : list State.Entry :=
  if isPlay c then
    match Spotify.play spotify site (playOptions pid) with
    | Fulfilled _ => [playbackStatus "playing"]
    | Rejected _ => []
    end
  else if tolerated c then [playbackStatus (optimisticStatus c)]
  else [].

(** The same, for the command of a batch found at [site] (nothing when
    there is no command there). *)
Definition contribution (provider : string -> Spotify.WebApi) (request : Request)
    (site : CallSite) : list State.Entry :=
  default []
    (d ← devices request !! site.1;
     c ← commands d !! site.2;
     Some (recorded (getSpotify provider request) site
             (externalIdToPlaylistDeviceId (externalDeviceId d)) c)).

(** The error with which the callback of command [c] launched at [site]
    rejects, if it does: only a rejected [play] does. *)
Definition rejectedWith (spotify : Spotify.WebApi) (site : CallSite)
    (pid : PlaylistDeviceId) (c : Command) : option Error :=
  if isPlay c then
    match Spotify.play spotify site (playOptions pid) with
    | Fulfilled _ => None
    | Rejected e => Some e
    end
  else None.

Definition failure (provider : string -> Spotify.WebApi) (request : Request)
    (site : CallSite) : option Error :=
  d ← devices request !! site.1;
  c ← commands d !! site.2;
  rejectedWith (getSpotify provider request) site
    (externalIdToPlaylistDeviceId (externalDeviceId d)) c.

#[global] Instance idle_dec (o : option Promise) : Decision (idle o).
Proof. destruct o as [[r|call resume]|]; cbn; apply _. Defined.

(** The sites at which a schedule really resumes a callback of the
    batch, in the order of their first settlement: each once, and each
    a site of the schedule where a callback was launched suspended. *)
Definition effective (request : Request) (schedule settled : list CallSite) : Prop :=
  NoDup settled /\
  forall site, site ∈ settled <->
               site ∈ schedule /\ ~ idle (promiseAt (launch request []) site).

(** * Properties *)

(** ** Strings *)

Lemma append_String c s t : String c s +:+ t = String c (s +:+ t).
Proof. reflexivity. Qed.

Section split_facts.

Variable sep : ascii.

Lemma pieces_nonempty s : Js.pieces sep s <> [].
Proof.
  destruct s as [|c s]; simpl; [done|].
  destruct (Ascii.eqb c sep); [done|].
  by destruct (Js.pieces sep s).
Qed.

Lemma pieces_free s : Js.free_of sep s -> Js.pieces sep s = [s].
Proof.
  unfold Js.free_of. induction s as [|c s IH]; simpl; [done|].
  destruct (Ascii.eqb c sep); [done|].
  intros H. by rewrite IH.
Qed.

Lemma pieces_cut t r :
  Js.free_of sep t -> Js.pieces sep (t +:+ String sep r) = t :: Js.pieces sep r.
Proof.
  unfold Js.free_of. induction t as [|c t IH]; simpl.
  - by rewrite Ascii.eqb_refl.
  - destruct (Ascii.eqb c sep); [done|].
    intros H. by rewrite IH.
Qed.

Lemma occurrences_app s t :
  Js.occurrences sep (s +:+ t) = Js.occurrences sep s + Js.occurrences sep t.
Proof. induction s as [|c s IH]; simpl; [done|]. rewrite IH. lia. Qed.

(** A string is its part before the first separator when it has
    none, and that part, the separator and the part after otherwise. *)
Lemma before_free s : Js.free_of sep (Js.before sep s).
Proof.
  unfold Js.free_of. induction s as [|c s IH]; simpl; [done|].
  destruct (Ascii.eqb c sep) eqn:E; simpl; [done|]. by rewrite E.
Qed.

Lemma before_after s :
  Js.occurrences sep s <> 0 ->
  s = Js.before sep s +:+ String sep (Js.after sep s).
Proof.
  induction s as [|c s IH]; simpl; [done|].
  destruct (Ascii.eqb c sep) eqn:E; simpl.
  - intros _. apply Ascii.eqb_eq in E. by subst.
  - intros H. rewrite append_String. f_equal. by apply IH.
Qed.

Lemma occurrences_after s :
  Js.occurrences sep s <> 0 ->
  Js.occurrences sep s = S (Js.occurrences sep (Js.after sep s)).
Proof.
  induction s as [|c s IH]; simpl; [done|].
  destruct (Ascii.eqb c sep); simpl; [done|]. exact IH.
Qed.

End split_facts.

(** ** Identity codec *)

Lemma pieces_head sep s : exists rest, Js.pieces sep s = Js.before sep s :: rest.
Proof.
  induction s as [|c s [rest IH]]; simpl; [by exists []|].
  destruct (Ascii.eqb c sep); [by eexists|].
  rewrite IH. by eexists.
Qed.

Lemma free_before c s : Js.free_of c s -> Js.before c s = s.
Proof.
  unfold Js.free_of. induction s as [|c' s IH]; simpl; [done|].
  destruct (Ascii.eqb c' c); [done|]. intros H. by rewrite IH.
Qed.

(** The decoder in closed form: the first piece, and the second piece
    when there is a delimiter. *)
Lemma decode_shape s :
  externalIdToPlaylistDeviceId s =
  {| deviceId := Str (Js.before delimiter s);
     playlistUri := if decide (Js.occurrences delimiter s = 0) then Undefined
                    else Str (Js.before delimiter (Js.after delimiter s)) |}.
Proof.
  unfold externalIdToPlaylistDeviceId, Js.split.
  destruct (decide (Js.occurrences delimiter s = 0)) as [Hz|Hnz].
  - rewrite (pieces_free delimiter s Hz), (free_before delimiter s Hz). reflexivity.
  - pose proof (before_after delimiter s Hnz) as Hs.
    pose proof (pieces_cut delimiter _ (Js.after delimiter s) (before_free delimiter s)) as Hp.
    rewrite <- Hs in Hp. rewrite Hp.
    destruct (pieces_head delimiter (Js.after delimiter s)) as [rest ->].
    reflexivity.
Qed.

Lemma after_cut c t r : Js.free_of c t -> Js.after c (t +:+ String c r) = r.
Proof.
  unfold Js.free_of. induction t as [|c' t IH]; simpl.
  - by rewrite Ascii.eqb_refl.
  - destruct (Ascii.eqb c' c); [done|]. exact IH.
Qed.

Lemma before_cut c t r : Js.free_of c t -> Js.before c (t +:+ String c r) = t.
Proof.
  unfold Js.free_of. induction t as [|c' t IH]; simpl.
  - by rewrite Ascii.eqb_refl.
  - destruct (Ascii.eqb c' c); [done|]. intros H. by rewrite IH.
Qed.

Lemma encode_unfold t q :
  playlistDeviceIdToExternalId {| deviceId := t; playlistUri := q |} =
  Js.toString t +:+ String delimiter (Js.toString q).
Proof. reflexivity. Qed.

(** C1: decoding the encoding of a pair whose two components are free
    of the delimiter gives the pair back. *)
Theorem decode_encode_roundtrip (t q : string) :
  Js.free_of delimiter t -> Js.free_of delimiter q ->
  externalIdToPlaylistDeviceId
    (playlistDeviceIdToExternalId {| deviceId := Str t; playlistUri := Str q |})
  = {| deviceId := Str t; playlistUri := Str q |}.
Proof.
  intros Ht Hq. rewrite encode_unfold. simpl Js.toString.
  unfold externalIdToPlaylistDeviceId, Js.split.
  rewrite (pieces_cut delimiter t q Ht), (pieces_free delimiter q Hq).
  reflexivity.
Qed.

Lemma decode_encode_roundtrip_witness :
  externalIdToPlaylistDeviceId
    (playlistDeviceIdToExternalId
       {| deviceId := Str "dev1"; playlistUri := Str "spotify:playlist:37i9" |})
  = {| deviceId := Str "dev1"; playlistUri := Str "spotify:playlist:37i9" |}.
Proof. apply (decode_encode_roundtrip "dev1" "spotify:playlist:37i9"); reflexivity. Defined.

(** C2, as stated, fails: with a second delimiter the queue is not the
    whole remainder after the first one. *)
Lemma decode_remainder_counterexample :
  Js.occurrences delimiter "a|b|c" <> 0 /\
  decode_at_first_delimiter "a|b|c" = {| deviceId := Str "a"; playlistUri := Str "b|c" |} /\
  externalIdToPlaylistDeviceId "a|b|c" = {| deviceId := Str "a"; playlistUri := Str "b" |} /\
  externalIdToPlaylistDeviceId "a|b|c" <> decode_at_first_delimiter "a|b|c".
Proof. repeat split; done. Qed.

(** C2, amended: on an external id with a delimiter, the playback
    target is the prefix before the first delimiter and the queue is the
    part of the remainder before the next delimiter (the whole remainder
    when it has none). *)
Theorem decode_first_two_pieces (s : string) :
  Js.occurrences delimiter s <> 0 ->
  externalIdToPlaylistDeviceId s =
  {| deviceId := Str (Js.before delimiter s);
     playlistUri := Str (Js.before delimiter (Js.after delimiter s)) |} /\
  (Js.free_of delimiter (Js.after delimiter s) ->
   externalIdToPlaylistDeviceId s = decode_at_first_delimiter s).
Proof.
  intros H. rewrite decode_shape. destruct (decide _) as [|_]; [done|].
  split; [done|]. intros Hf. unfold decode_at_first_delimiter.
  by rewrite (free_before _ _ Hf).
Qed.

Lemma decode_first_two_pieces_witness :
  externalIdToPlaylistDeviceId "a|b|c" =
  {| deviceId := Str (Js.before delimiter "a|b|c");
     playlistUri := Str (Js.before delimiter (Js.after delimiter "a|b|c")) |} /\
  (Js.free_of delimiter (Js.after delimiter "a|b|c") ->
   externalIdToPlaylistDeviceId "a|b|c" = decode_at_first_delimiter "a|b|c").
Proof. apply (decode_first_two_pieces "a|b|c"). vm_compute. discriminate. Defined.

(** C8: the decoder always returns a record whose playback target is a
    string; without a delimiter the queue is [undefined], and the empty
    string decodes to the empty target and the [undefined] queue. *)
Theorem decode_total (s : string) :
  (exists t, deviceId (externalIdToPlaylistDeviceId s) = Str t) /\
  (Js.free_of delimiter s ->
   externalIdToPlaylistDeviceId s = {| deviceId := Str s; playlistUri := Undefined |}) /\
  externalIdToPlaylistDeviceId "" = {| deviceId := Str ""; playlistUri := Undefined |}.
Proof.
  split; [|split; [|reflexivity]].
  - rewrite decode_shape. by eexists.
  - intros Hf. rewrite decode_shape. rewrite (free_before _ _ Hf).
    destruct (decide _) as [|Hn]; [done|]. by destruct Hn.
Qed.

Lemma decode_total_witness :
  externalIdToPlaylistDeviceId "dev1" = {| deviceId := Str "dev1"; playlistUri := Undefined |}.
Proof. apply (decode_total "dev1"). reflexivity. Defined.

(** Whatever is decoded, its encoding has exactly one delimiter. *)
Lemma encode_decode_occurrences s :
  Js.occurrences delimiter (playlistDeviceIdToExternalId (externalIdToPlaylistDeviceId s)) = 1.
Proof.
  rewrite decode_shape, encode_unfold, occurrences_app. simpl Js.toString.
  rewrite before_free. simpl.
  destruct (decide _); simpl; [done|]. by rewrite before_free.
Qed.

(** C10: encoding the decoding of a string with exactly one delimiter
    gives the string back, and it does so for no other string: with no
    delimiter the result ends in ["|undefined"], with several the tail
    from the second delimiter on is lost. *)
Theorem encode_decode_one_delimiter (s : string) :
  (Js.occurrences delimiter s = 1 ->
   playlistDeviceIdToExternalId (externalIdToPlaylistDeviceId s) = s) /\
  (Js.occurrences delimiter s <> 1 ->
   playlistDeviceIdToExternalId (externalIdToPlaylistDeviceId s) <> s).
Proof.
  split.
  - intros H1.
    assert (Hnz : Js.occurrences delimiter s <> 0) by lia.
    assert (Hf : Js.free_of delimiter (Js.after delimiter s)).
    { unfold Js.free_of. pose proof (occurrences_after delimiter s Hnz). lia. }
    rewrite decode_shape. destruct (decide _) as [|_]; [done|].
    rewrite encode_unfold. simpl Js.toString. rewrite (free_before _ _ Hf).
    symmetry. by apply before_after.
  - intros Hne Heq. apply Hne. rewrite <- Heq at 1. apply encode_decode_occurrences.
Qed.

Lemma encode_decode_one_delimiter_witness :
  playlistDeviceIdToExternalId (externalIdToPlaylistDeviceId "dev1|ctx1") = "dev1|ctx1" /\
  playlistDeviceIdToExternalId (externalIdToPlaylistDeviceId "dev1") <> "dev1" /\
  playlistDeviceIdToExternalId (externalIdToPlaylistDeviceId "a|b|c") <> "a|b|c".
Proof.
  split; [|split].
  - apply (encode_decode_one_delimiter "dev1|ctx1"). reflexivity.
  - apply (encode_decode_one_delimiter "dev1"). vm_compute. discriminate.
  - apply (encode_decode_one_delimiter "a|b|c"). vm_compute. discriminate.
Defined.

(** ** Device enumerator *)

Lemma foldl_push {A B} (f : B -> A) (l : list B) (acc : list A) :
  foldl (fun acc x => acc ++ [f x]) acc l = acc ++ (f <$> l).
Proof.
  revert acc. induction l as [|x l IH]; intros acc; simpl.
  - by rewrite app_nil_r.
  - rewrite IH. by rewrite <- app_assoc.
Qed.

Lemma foldl_extend {A B} (f : B -> list A) (l : list B) (acc : list A) :
  foldl (fun acc x => acc ++ f x) acc l = acc ++ (l ≫= f).
Proof.
  revert acc. induction l as [|x l IH]; intros acc; csimpl.
  - by rewrite app_nil_r.
  - rewrite IH. by rewrite <- app_assoc.
Qed.

Lemma foldl_pointwise {A B} (f g : A -> B -> A) (l : list B) (acc : A) :
  (forall a x, f a x = g a x) -> foldl f acc l = foldl g acc l.
Proof.
  intros H. revert acc. induction l as [|x l IH]; intros acc; simpl; [done|].
  by rewrite H, IH.
Qed.

Lemma filter_filter {A} (f g : A -> bool) (l : list A) :
  List.filter g (List.filter f l) = List.filter (fun x => f x && g x) l.
Proof.
  induction l as [|x l IH]; simpl; [done|].
  destruct (f x); simpl; [|done]. destruct (g x); by rewrite IH.
Qed.

(** The enumerator in closed form. *)
Lemma getPlaylistDevices_spec spotify ds ps :
  Spotify.getMyDevices spotify = Fulfilled ds ->
  Spotify.getUserPlaylists spotify = Fulfilled ps ->
  getPlaylistDevices spotify = Fulfilled (crossProduct (List.filter selected ds) ps).
Proof.
  intros Hd Hp. unfold getPlaylistDevices. rewrite Hd, Hp. cbn [mbind Settled_bind mret Settled_ret].
  f_equal. rewrite filter_filter. fold selected.
  unfold crossProduct.
  rewrite (foldl_pointwise _ (fun acc d => acc ++ (playlistDevice d <$> ps))).
  - by rewrite foldl_extend.
  - intros acc d. by rewrite foldl_push.
Qed.

Lemma length_crossProduct ds ps :
  length (crossProduct ds ps) = length ds * length ps.
Proof.
  unfold crossProduct. induction ds as [|d ds IH]; csimpl; [done|].
  rewrite length_app, length_fmap, IH. lia.
Qed.

Lemma crossProduct_ids ds ps :
  id <$> crossProduct ds ps =
  d ← ds; (fun p => {| deviceId := Spotify.device_id d;
                       playlistUri := Str (Spotify.playlist_uri p) |}) <$> ps.
Proof.
  unfold crossProduct. induction ds as [|d ds IH]; csimpl; [done|].
  rewrite fmap_app, IH. f_equal. rewrite <- list_fmap_compose. done.
Qed.

Lemma NoDup_fmap_eq {A B} (f : A -> B) (l : list A) x y :
  NoDup (f <$> l) -> x ∈ l -> y ∈ l -> f x = f y -> x = y.
Proof.
  induction l as [|a l IH]; csimpl; [by inversion 2|].
  rewrite NoDup_cons, !elem_of_cons. intros [Hn Hnd] [->|Hx] [->|Hy] Heq; auto.
  - destruct Hn. rewrite Heq. by apply list_elem_of_fmap_2.
  - destruct Hn. rewrite <- Heq. by apply list_elem_of_fmap_2.
Qed.

Lemma NoDup_crossProduct_ids ds ps :
  NoDup (Spotify.device_id <$> ds) ->
  NoDup (Spotify.playlist_uri <$> ps) ->
  NoDup (id <$> crossProduct ds ps).
Proof.
  intros Hds Hps. rewrite crossProduct_ids. apply NoDup_bind.
  - intros d1 d2 y H1 H2 (p1 & -> & _)%list_elem_of_fmap (p2 & Heq & _)%list_elem_of_fmap.
    apply (NoDup_fmap_eq Spotify.device_id ds); auto. congruence.
  - intros d _. apply NoDup_fmap_2_strong.
    + intros p1 p2 H1 H2 Heq.
      apply (NoDup_fmap_eq Spotify.playlist_uri ps); auto. congruence.
    + by apply NoDup_fmap_1 in Hps.
  - by apply NoDup_fmap_1 in Hds.
Qed.

(** C3: when the provider reports the targets [ds] and the playlists
    [ps], the enumerator returns one record per selected target and
    playlist, [m * n] in all, and their composite ids are pairwise
    distinct when the selected targets have distinct ids and the
    playlists distinct uris. *)
Theorem enumeration_cross_product (spotify : Spotify.WebApi)
    (ds : list Spotify.Device) (ps : list Spotify.Playlist) :
  Spotify.getMyDevices spotify = Fulfilled ds ->
  Spotify.getUserPlaylists spotify = Fulfilled ps ->
  exists result,
    getPlaylistDevices spotify = Fulfilled result /\
    length result = length (List.filter selected ds) * length ps /\
    (NoDup (Spotify.device_id <$> List.filter selected ds) ->
     NoDup (Spotify.playlist_uri <$> ps) ->
     NoDup (id <$> result)).
Proof.
  intros Hd Hp. eexists. split; [by apply getPlaylistDevices_spec|].
  split; [apply length_crossProduct|apply NoDup_crossProduct_ids].
Qed.

Lemma enumeration_cross_product_witness :
  exists result,
    getPlaylistDevices (failingProvider true "token") = Fulfilled result /\
    length result = length (List.filter selected sampleDevices) * length samplePlaylists /\
    (NoDup (Spotify.device_id <$> List.filter selected sampleDevices) ->
     NoDup (Spotify.playlist_uri <$> samplePlaylists) ->
     NoDup (id <$> result)).
Proof.
  apply (enumeration_cross_product (failingProvider true "token") sampleDevices samplePlaylists);
    reflexivity.
Defined.

(** ** Discovery handler *)

Lemma alter_last {A} (f : A -> A) (l : list A) (x : A) :
  alter f (length l) (l ++ [x]) = l ++ [f x].
Proof. rewrite <- (Nat.add_0_r (length l)). by rewrite alter_app_r. Qed.

(** Discovery in closed form: the handler fails as the enumerator does,
    and otherwise appends one announcement per virtual device. *)
Lemma discoveryRequest_spec provider request response :
  discoveryRequest provider request response =
  devices ← getPlaylistDevices (getSpotify provider request);
  mret (response ++ (announcement <$> devices)).
Proof.
  unfold discoveryRequest. destruct (getPlaylistDevices _) as [l|e]; [|done].
  cbn [mbind Settled_bind mret Settled_ret]. f_equal.
  rewrite <- foldl_push. apply foldl_pointwise. intros acc d.
  unfold Discovery.addDevice, Discovery.manufacturerName, Discovery.modelName.
  cbv beta iota zeta. by rewrite 2!(alter_last _ acc).
Qed.

(** C9: two discovery runs, each with its own client and a fresh
    response, for which the provider reports the same targets and the
    same playlists, register the same announcements: one per selected
    target and playlist, with the same external id, display name and
    model name. *)
Theorem discovery_idempotent (provider provider' : string -> Spotify.WebApi)
    (request request' : Request)
    (ds : list Spotify.Device) (ps : list Spotify.Playlist) :
  Spotify.getMyDevices (getSpotify provider request) = Fulfilled ds ->
  Spotify.getUserPlaylists (getSpotify provider request) = Fulfilled ps ->
  Spotify.getMyDevices (getSpotify provider' request') = Fulfilled ds ->
  Spotify.getUserPlaylists (getSpotify provider' request') = Fulfilled ps ->
  exists announcements,
    discoveryRequest provider request [] = Fulfilled announcements /\
    discoveryRequest provider' request' [] = Fulfilled announcements /\
    (fun a => (Discovery.externalDeviceId a, Discovery.friendlyName a, Discovery.modelName_ a))
      <$> announcements =
    (fun d => (playlistDeviceIdToExternalId (id d), name d, Some (model d)))
      <$> crossProduct (List.filter selected ds) ps.
Proof.
  intros Hd Hp Hd' Hp'. eexists. rewrite !discoveryRequest_spec.
  rewrite (getPlaylistDevices_spec _ ds ps Hd Hp), (getPlaylistDevices_spec _ ds ps Hd' Hp').
  cbn [mbind Settled_bind mret Settled_ret]. split; [done|]. split; [done|].
  rewrite app_nil_l, <- list_fmap_compose. done.
Qed.

Lemma discovery_idempotent_witness :
  exists announcements,
    discoveryRequest (failingProvider true) discoveryEnvelope [] = Fulfilled announcements /\
    discoveryRequest (failingProvider false) discoveryEnvelope [] = Fulfilled announcements /\
    (fun a => (Discovery.externalDeviceId a, Discovery.friendlyName a, Discovery.modelName_ a))
      <$> announcements =
    (fun d => (playlistDeviceIdToExternalId (id d), name d, Some (model d)))
      <$> crossProduct (List.filter selected sampleDevices) samplePlaylists.
Proof.
  apply (discovery_idempotent (failingProvider true) (failingProvider false)
           discoveryEnvelope discoveryEnvelope sampleDevices samplePlaylists);
    reflexivity.
Defined.

(** ** State-refresh handler *)

(** C6: one state-refresh run reports every enumerated virtual device
    with the same two states: the fixed list of supported commands, and
    the playback status read from the single flag of the provider,
    [playing] when it is set and [paused] otherwise. *)
Theorem state_refresh_uniform (provider : string -> Spotify.WebApi) (request : Request)
    (ds : list Spotify.Device) (ps : list Spotify.Playlist) (st : Spotify.PlaybackState) :
  Spotify.getMyDevices (getSpotify provider request) = Fulfilled ds ->
  Spotify.getUserPlaylists (getSpotify provider request) = Fulfilled ps ->
  Spotify.getMyCurrentPlaybackState (getSpotify provider request) = Fulfilled st ->
  stateRefreshRequest provider request [] =
  Fulfilled
    ((fun d => {| State.externalDeviceId := playlistDeviceIdToExternalId (id d);
                  State.components := [];
                  State.states :=
                    [ supportedPlaybackCommands;
                      playbackStatus (if Spotify.is_playing st then "playing" else "paused") ] |})
       <$> crossProduct (List.filter selected ds) ps).
Proof.
  intros Hd Hp Hs. unfold stateRefreshRequest.
  rewrite (getPlaylistDevices_spec _ ds ps Hd Hp), Hs.
  cbn [mbind Settled_bind mret Settled_ret]. f_equal.
  rewrite <- (app_nil_l (_ <$> _)), <- foldl_push. by apply foldl_pointwise.
Qed.

Lemma state_refresh_uniform_witness :
  stateRefreshRequest (failingProvider true) discoveryEnvelope [] =
  Fulfilled
    [ {| State.externalDeviceId := "dev1|spotify:playlist:a"; State.components := [];
         State.states := [supportedPlaybackCommands; playbackStatus "playing"] |};
      {| State.externalDeviceId := "dev1|spotify:playlist:b"; State.components := [];
         State.states := [supportedPlaybackCommands; playbackStatus "playing"] |} ].
Proof.
  apply (state_refresh_uniform (failingProvider true) discoveryEnvelope
           sampleDevices samplePlaylists {| Spotify.is_playing := true |});
    reflexivity.
Defined.

(** ** Command handler: the synchronous part *)

Lemma deviceCallback_unfold b d :
  deviceCallback b d =
  {| response := response b ++ [launchedEntry d];
     promises := promises b ++ [launchedRow (length (response b)) d];
     calls := calls b ++ rowCalls (length (promises b)) (launchedRow (length (response b)) d);
     rejection := rejection b |}.
Proof.
  unfold deviceCallback, State.addDevice, State.addComponent. cbv beta iota zeta.
  by rewrite (alter_last _ (response b)).
Qed.

Lemma launch_fold ds : forall b,
  foldl deviceCallback b ds =
  {| response := response b ++ (launchedEntry <$> ds);
     promises := promises b ++ imap (fun i d => launchedRow (length (response b) + i) d) ds;
     calls := calls b ++
              mjoin (imap (fun i d => rowCalls (length (promises b) + i)
                                        (launchedRow (length (response b) + i) d)) ds);
     rejection := rejection b |}.
Proof.
  induction ds as [|d ds IH]; intros b.
  - destruct b. simpl. by rewrite !app_nil_r.
  - simpl foldl. rewrite IH, deviceCallback_unfold. cbn [response promises calls rejection].
    rewrite !length_app. cbn [length]. f_equal.
    + by rewrite <- app_assoc.
    + rewrite <- app_assoc. f_equal. cbn [imap app]. rewrite Nat.add_0_r. f_equal.
      apply imap_ext. intros i x _. unfold compose. f_equal. lia.
    + rewrite <- app_assoc. f_equal. cbn [imap mjoin]. rewrite !Nat.add_0_r. csimpl. f_equal.
      f_equal. apply imap_ext. intros i x _. unfold compose. f_equal; [lia|f_equal; lia].
Qed.

Lemma launch_unfold request :
  launch request [] =
  {| response := launchedEntry <$> devices request;
     promises := imap launchedRow (devices request);
     calls := mjoin (imap (fun i d => rowCalls i (launchedRow i d)) (devices request));
     rejection := None |}.
Proof. unfold launch. by rewrite launch_fold. Qed.

Lemma promiseAt_launch request i j :
  promiseAt (launch request []) (i, j) =
  d ← devices request !! i;
  c ← commands d !! j;
  Some (commandCallback (i, "main") (externalIdToPlaylistDeviceId (externalDeviceId d)) c).
Proof.
  rewrite launch_unfold. unfold promiseAt. cbn [promises fst snd].
  rewrite list_lookup_imap. destruct (devices request !! i) as [d|]; [|done].
  cbn. unfold launchedRow. rewrite list_lookup_fmap. by destruct (commands d !! j).
Qed.

(** ** Command handler: one settlement *)

Lemma withStates_nil d : withStates [] d = d.
Proof. destruct d. unfold withStates. simpl. by rewrite app_nil_r. Qed.

Lemma withStates_withStates l k d : withStates k (withStates l d) = withStates (l ++ k) d.
Proof. unfold withStates. simpl. by rewrite app_assoc. Qed.

Lemma addState_alter h c cap attr v r :
  State.addState (h, c) cap attr v r =
  alter (withStates [ {| State.component := c; State.capability := cap;
                         State.attribute := attr; State.value := v |} ]) h r.
Proof. reflexivity. Qed.

Lemma commandCallback_appends h c pid cmd : appendsTo h (commandCallback (h, c) pid cmd).
Proof.
  unfold commandCallback.
  repeat match goal with |- context [String.eqb ?a ?b] => destruct (String.eqb a b) end;
    cbn [appendsTo]; try done; intros settled r.
  - destruct settled as [u|e]; cbn [fst].
    + rewrite addState_alter. by eexists.
    + exists []. symmetry. apply list_alter_id, withStates_nil.
  - rewrite addState_alter. by eexists.
  - rewrite addState_alter. by eexists.
  - rewrite addState_alter. by eexists.
Qed.

Lemma rowsAppend_launch request : rowsAppend (launch request []).
Proof.
  rewrite launch_unfold. intros i row. cbn [promises]. rewrite list_lookup_imap.
  destruct (devices request !! i) as [d|]; [|done]. intros [= <-].
  unfold launchedRow. apply Forall_fmap, Forall_forall. intros cmd _.
  apply commandCallback_appends.
Qed.

Section settlement.

Variable spotify : Spotify.WebApi.

Lemma settle_pending b site call resume :
  promiseAt b site = Some (Pending call resume) ->
  settle spotify b site =
  let result := resume (Spotify.perform spotify site call) (response b) in
  {| response := result.1;
     promises := alter (fun row => <[site.2 := Done result.2]> row) site.1 (promises b);
     calls := calls b;
     rejection := match rejection b, result.2 with
                  | None, Rejected e => Some e
                  | old, _ => old
                  end |}.
Proof. intros H. unfold settle. rewrite H. by destruct (resume _ _). Qed.

Lemma settle_done b site r :
  promiseAt b site = Some (Done r) -> settle spotify b site = b.
Proof. intros H. unfold settle. by rewrite H. Qed.

Lemma settle_none b site :
  promiseAt b site = None -> settle spotify b site = b.
Proof. intros H. unfold settle. by rewrite H. Qed.

Lemma settle_calls b site : calls (settle spotify b site) = calls b.
Proof.
  destruct (promiseAt b site) as [[r|call resume]|] eqn:H.
  - by rewrite (settle_done _ _ _ H).
  - by rewrite (settle_pending _ _ _ _ H).
  - by rewrite (settle_none _ _ H).
Qed.

Lemma settle_rejection b site e :
  rejection b = Some e -> rejection (settle spotify b site) = Some e.
Proof.
  intros He. destruct (promiseAt b site) as [[r|call resume]|] eqn:H.
  - by rewrite (settle_done _ _ _ H).
  - rewrite (settle_pending _ _ _ _ H). cbn. by rewrite He.
  - by rewrite (settle_none _ _ H).
Qed.

(** A settlement leaves the promises of the other sites alone, and a
    promise that is done stays as it is. *)
Lemma settle_promiseAt_ne b site site' :
  site <> site' -> promiseAt (settle spotify b site') site = promiseAt b site.
Proof.
  intros Hne. destruct (promiseAt b site') as [[r|call resume]|] eqn:H.
  - by rewrite (settle_done _ _ _ H).
  - rewrite (settle_pending _ _ _ _ H). unfold promiseAt. cbn [promises].
    destruct site as [i j], site' as [i' j']. cbn [fst snd].
    rewrite list_lookup_alter. destruct (decide (i' = i)) as [->|]; [|done].
    destruct (promises b !! i) as [row|]; [|done]. cbn.
    apply list_lookup_insert_ne. congruence.
  - by rewrite (settle_none _ _ H).
Qed.

Lemma settle_promiseAt_pending b site call resume :
  promiseAt b site = Some (Pending call resume) ->
  promiseAt (settle spotify b site) site =
  Some (Done (resume (Spotify.perform spotify site call) (response b)).2).
Proof.
  intros H. rewrite (settle_pending _ _ _ _ H). revert H. unfold promiseAt.
  cbn [promises]. destruct site as [i j]. cbn [fst snd].
  rewrite list_lookup_alter_eq. destruct (promises b !! i) as [row|]; [|done]. cbn.
  intros H. apply list_lookup_insert_eq. apply lookup_lt_is_Some. by eexists.
Qed.

Lemma settle_promiseAt_done b site site' r :
  promiseAt b site = Some (Done r) -> promiseAt (settle spotify b site') site = Some (Done r).
Proof.
  intros H. destruct (decide (site = site')) as [<-|Hne].
  - by rewrite (settle_done _ _ _ H).
  - by rewrite settle_promiseAt_ne.
Qed.

(** Under the invariant a settlement appends some states (possibly
    none) to the entry of its row, and keeps the invariant. *)
Lemma settle_appends b site :
  rowsAppend b ->
  exists extra, response (settle spotify b site) = alter (withStates extra) site.1 (response b).
Proof.
  intros Hinv. destruct (promiseAt b site) as [[r|call resume]|] eqn:H.
  - rewrite (settle_done _ _ _ H). exists []. symmetry. apply list_alter_id, withStates_nil.
  - rewrite (settle_pending _ _ _ _ H). cbn [response].
    unfold promiseAt in H. destruct (promises b !! site.1) as [row|] eqn:Hrow; [|done].
    cbn in H. pose proof (Hinv _ _ Hrow) as Hall.
    rewrite Forall_forall in Hall. apply (Hall (Pending call resume)).
    apply list_elem_of_lookup. by eexists.
  - rewrite (settle_none _ _ H). exists []. symmetry. apply list_alter_id, withStates_nil.
Qed.

Lemma settle_rowsAppend b site : rowsAppend b -> rowsAppend (settle spotify b site).
Proof.
  intros Hinv. destruct (promiseAt b site) as [[r|call resume]|] eqn:H.
  - by rewrite (settle_done _ _ _ H).
  - rewrite (settle_pending _ _ _ _ H). intros i row. cbn [promises].
    rewrite list_lookup_alter. destruct (decide (site.1 = i)) as [<-|]; [|by apply Hinv].
    destruct (promises b !! site.1) as [row0|] eqn:Hrow; [|done]. cbn. intros [= <-].
    apply Forall_insert; [by apply (Hinv _ _ Hrow)|done].
  - by rewrite (settle_none _ _ H).
Qed.

End settlement.

(** ** Command handler: a whole schedule *)

Section runs.

Variable spotify : Spotify.WebApi.

Lemma run_snoc b schedule site :
  foldl (settle spotify) b (schedule ++ [site]) =
  settle spotify (foldl (settle spotify) b schedule) site.
Proof. by rewrite foldl_app. Qed.

Lemma run_calls schedule : forall b, calls (foldl (settle spotify) b schedule) = calls b.
Proof.
  induction schedule as [|site schedule IH]; intros b; simpl; [done|].
  by rewrite IH, settle_calls.
Qed.

Lemma run_rejection schedule : forall b e,
  rejection b = Some e -> rejection (foldl (settle spotify) b schedule) = Some e.
Proof.
  induction schedule as [|site schedule IH]; intros b e He; simpl; [done|].
  by apply IH, settle_rejection.
Qed.

Lemma run_promiseAt_notin schedule site : forall b,
  site ∉ schedule ->
  promiseAt (foldl (settle spotify) b schedule) site = promiseAt b site.
Proof.
  induction schedule as [|site' schedule IH]; intros b Hnot; simpl; [done|].
  apply not_elem_of_cons in Hnot as [Hne Hnot].
  rewrite IH by done. by apply settle_promiseAt_ne.
Qed.

Lemma run_promiseAt_done schedule site r : forall b,
  promiseAt b site = Some (Done r) ->
  promiseAt (foldl (settle spotify) b schedule) site = Some (Done r).
Proof.
  induction schedule as [|site' schedule IH]; intros b H; simpl; [done|].
  by apply IH, settle_promiseAt_done.
Qed.

Lemma run_done_noop schedule site r : forall b,
  promiseAt b site = Some (Done r) ->
  settle spotify (foldl (settle spotify) b schedule) site = foldl (settle spotify) b schedule.
Proof. intros b H. eapply settle_done. by apply run_promiseAt_done. Qed.

Lemma run_rowsAppend schedule : forall b,
  rowsAppend b -> rowsAppend (foldl (settle spotify) b schedule).
Proof.
  induction schedule as [|site schedule IH]; intros b H; simpl; [done|].
  by apply IH, settle_rowsAppend.
Qed.

Lemma addressed_alter extra h r : addressed (alter (withStates extra) h r) = addressed r.
Proof.
  unfold addressed. rewrite (list_fmap_alter _ _ (fun x => x)).
  - by apply list_alter_id.
  - by apply Forall_forall.
Qed.

(** A run never changes how the entries are addressed, and an entry
    only gains states. *)
Lemma run_addressed schedule : forall b,
  rowsAppend b ->
  addressed (response (foldl (settle spotify) b schedule)) = addressed (response b).
Proof.
  induction schedule as [|site schedule IH]; intros b H; simpl; [done|].
  rewrite IH by by apply settle_rowsAppend.
  destruct (settle_appends spotify b site H) as [extra ->]. apply addressed_alter.
Qed.

Lemma run_grows schedule i : forall b d,
  rowsAppend b -> response b !! i = Some d ->
  exists extra, response (foldl (settle spotify) b schedule) !! i = Some (withStates extra d).
Proof.
  induction schedule as [|site schedule IH]; intros b d H Hd; simpl.
  - exists []. by rewrite withStates_nil.
  - destruct (settle_appends spotify b site H) as [extra Hr].
    destruct (decide (site.1 = i)) as [Heq|Hne].
    + destruct (IH (settle spotify b site) (withStates extra d)) as [extra' Hx].
      * by apply settle_rowsAppend.
      * rewrite Hr, Heq, list_lookup_alter_eq, Hd. done.
      * exists (extra ++ extra'). by rewrite Hx, withStates_withStates.
    + apply IH; [by apply settle_rowsAppend|].
      by rewrite Hr, list_lookup_alter_ne.
Qed.

(** The entry of a row none of whose callbacks is suspended is never
    touched. *)
Lemma run_idle_row schedule i : forall b,
  rowsAppend b -> (forall j, idle (promiseAt b (i, j))) ->
  response (foldl (settle spotify) b schedule) !! i = response b !! i.
Proof.
  induction schedule as [|site schedule IH]; intros b H Hidle; simpl; [done|].
  destruct (decide (site.1 = i)) as [Heq|Hne].
  - assert (settle spotify b site = b) as ->; [|by apply IH].
    destruct site as [i' j]. cbn in Heq. subst i'. specialize (Hidle j).
    destruct (promiseAt b (i, j)) as [[r|call resume]|] eqn:Hp; [|done|].
    + by eapply settle_done.
    + by eapply settle_none.
  - rewrite IH.
    + destruct (settle_appends spotify b site H) as [extra ->].
      by apply list_lookup_alter_ne.
    + by apply settle_rowsAppend.
    + intros j. rewrite settle_promiseAt_ne; [done|]. intros <-. by apply Hne.
Qed.

Lemma settle_idle_here b site : idle (promiseAt (settle spotify b site) site).
Proof.
  destruct (promiseAt b site) as [[r|call resume]|] eqn:H.
  - by rewrite (settle_done _ _ _ _ H), H.
  - by rewrite (settle_promiseAt_pending _ _ _ _ _ H).
  - by rewrite (settle_none _ _ _ H), H.
Qed.

Lemma settle_idle b site site' :
  idle (promiseAt b site) -> idle (promiseAt (settle spotify b site') site).
Proof.
  intros H. destruct (decide (site = site')) as [<-|Hne].
  - apply settle_idle_here.
  - by rewrite settle_promiseAt_ne.
Qed.

Lemma run_idle schedule site : forall b,
  site ∈ schedule \/ idle (promiseAt b site) ->
  idle (promiseAt (foldl (settle spotify) b schedule) site).
Proof.
  induction schedule as [|site' schedule IH]; intros b H; simpl.
  - destruct H as [H|H]; [by apply elem_of_nil in H|done].
  - apply IH. destruct H as [[->|H]%elem_of_cons|H]; [right|by left|right].
    + apply settle_idle_here.
    + by apply settle_idle.
Qed.

End runs.

Lemma all_idle_done b :
  (forall site, idle (promiseAt b site)) -> forallb (forallb isDone) (promises b) = true.
Proof.
  intros H. apply forallb_forall. intros row [i Hi]%list_elem_of_In%list_elem_of_lookup.
  apply forallb_forall. intros p [j Hj]%list_elem_of_In%list_elem_of_lookup.
  specialize (H (i, j)). unfold promiseAt in H. cbn in H. rewrite Hi in H. cbn in H.
  rewrite Hj in H. by destruct p.
Qed.


(** ** Command handler: the provider calls *)

Lemma rowCalls_from (site : CallSite) (i : nat) (row : list Promise) : forall k : nat,
  (filter (fun x => x.1 = site)
     (omap (fun '(j, p) => call ← awaited p; Some ((i, j), call))
        (imap (fun j p => (k + j, p)) row))).*2 =
  if decide (i = site.1 /\ k <= site.2)
  then option_list (row !! (site.2 - k) ≫= awaited) else [].
Proof.
  destruct site as [i0 j0]. cbn [fst snd].
  induction row as [|p row IH]; intros k.
  - cbn. by destruct (decide _).
  - cbn [imap omap list_omap]. rewrite Nat.add_0_r.
    rewrite (imap_ext _ (fun j p => (S k + j, p))) by (intros; unfold compose; f_equal; lia).
    destruct p as [r|call resume]; cbn [awaited mbind option_bind].
    + rewrite IH. repeat case_decide; try done; try lia.
      * destruct (j0 - k) as [|n] eqn:E; [lia|]. cbn. do 3 f_equal. lia.
      * destruct (decide (j0 = k)) as [->|]; [|lia]. by rewrite Nat.sub_diag.
    + destruct (decide ((i, k) = (i0, j0))) as [[= -> ->]|Hne].
      * rewrite filter_cons_True by done. cbn [fmap list_fmap snd]. rewrite IH.
        rewrite Nat.sub_diag. repeat case_decide; try done; lia.
      * rewrite filter_cons_False by done. rewrite IH.
        repeat case_decide; try done; try lia.
        -- destruct (j0 - k) as [|n] eqn:E; [destruct Hne; f_equal; lia|].
           cbn. do 3 f_equal. lia.
        -- destruct Hne. f_equal; lia.
Qed.

Lemma rowCalls_at (site : CallSite) (i : nat) (row : list Promise) :
  (filter (fun x => x.1 = site) (rowCalls i row)).*2 =
  if decide (i = site.1) then option_list (row !! site.2 ≫= awaited) else [].
Proof.
  pose proof (rowCalls_from site i row 0) as H. rewrite Nat.sub_0_r in H.
  unfold rowCalls. etransitivity; [exact H|].
  repeat case_decide; try done; lia.
Qed.

Lemma launched_calls_from (site : CallSite) (rows : nat -> DeviceRequest -> list Promise)
    (ds : list DeviceRequest) : forall k : nat,
  (filter (fun x => x.1 = site)
     (mjoin (imap (fun i d => rowCalls (k + i) (rows (k + i) d)) ds))).*2 =
  if decide (k <= site.1)
  then match ds !! (site.1 - k) with
       | Some d => option_list (rows site.1 d !! site.2 ≫= awaited)
       | None => []
       end
  else [].
Proof.
  induction ds as [|d ds IH]; intros k.
  - cbn. by destruct (decide _).
  - cbn [imap mjoin list_join]. rewrite filter_app, fmap_app, rowCalls_at, Nat.add_0_r.
    rewrite (imap_ext _ (fun i d => rowCalls (S k + i) (rows (S k + i) d)))
      by (intros i' x' _; unfold compose; cbn; by replace (k + S i') with (S (k + i')) by lia).
    rewrite IH. repeat case_decide; subst; try done; try lia.
    + rewrite Nat.sub_diag. cbn. by rewrite app_nil_r.
    + destruct (site.1 - k) as [|n] eqn:E; [lia|]. cbn.
      by replace (site.1 - S k) with n by lia.
Qed.

(** The calls made from a site are made in the synchronous part, by
    the callback launched there, and no settlement adds to them. *)
Lemma callsAt_launch request site :
  callsAt site (launch request []) =
  option_list (promiseAt (launch request []) site ≫= awaited).
Proof.
  unfold callsAt. destruct site as [i j]. rewrite promiseAt_launch.
  rewrite launch_unfold. cbn [calls].
  pose proof (launched_calls_from (i, j) launchedRow (devices request) 0) as H.
  cbn [fst snd] in H. rewrite Nat.sub_0_r in H.
  etransitivity; [exact H|]. clear H.
  destruct (devices request !! i) as [d|]; [|done]. cbn.
  unfold launchedRow. rewrite list_lookup_fmap. by destruct (commands d !! j).
Qed.

Lemma callsAt_commandRequest provider schedule request site :
  callsAt site (commandRequest provider schedule request []) =
  option_list (promiseAt (launch request []) site ≫= awaited).
Proof.
  unfold commandRequest, callsAt. rewrite run_calls. apply callsAt_launch.
Qed.

Lemma elem_of_calls_launch request site call resume :
  promiseAt (launch request []) site = Some (Pending call resume) ->
  (site, call) ∈ calls (launch request []).
Proof.
  intros H. pose proof (callsAt_launch request site) as Hc. rewrite H in Hc. cbn in Hc.
  unfold callsAt in Hc.
  assert (call ∈ (filter (fun x => x.1 = site) (calls (launch request []))).*2) as Hin
    by (rewrite Hc; apply list_elem_of_here).
  apply list_elem_of_fmap in Hin as ([site' call'] & -> & [Hs Hin]%list_elem_of_filter).
  cbn in Hs. by subst site'.
Qed.

(** ** Command handler: the dispatch table *)

Lemma isPlay_spec c :
  isPlay c = true -> capability c = "st.mediaPlayback" /\ command c = "play".
Proof. unfold isPlay. intros [H1 H2]%andb_true_iff. by apply String.eqb_eq in H1, H2. Qed.

Lemma commandCallback_play component pid c :
  isPlay c = true ->
  commandCallback component pid c =
  Pending (Spotify.Play (playOptions pid))
    (fun settled response =>
       match settled with
       | Fulfilled _ =>
           (State.addState component "st.mediaPlayback" "playbackStatus"
              (State.Text "playing") response, Fulfilled tt)
       | Rejected e => (response, Rejected e)
       end).
Proof.
  intros [H1 H2]%isPlay_spec. unfold commandCallback. by rewrite H1, H2.
Qed.

Lemma commandCallback_tolerated component pid c :
  tolerated c = true ->
  exists call,
    commandCallback component pid c =
    Pending call
      (fun _ response =>
         (State.addState component "st.mediaPlayback" "playbackStatus"
            (State.Text (optimisticStatus c)) response, Fulfilled tt)).
Proof.
  unfold tolerated, commandCallback, optimisticStatus.
  intros [H1%String.eqb_eq H2]%andb_true_iff. rewrite H1. cbn [String.eqb Ascii.eqb].
  destruct (String.eqb_spec (command c) "pause") as [->|_]; [by eexists|].
  destruct (String.eqb_spec (command c) "fastForward") as [->|_]; [by eexists|].
  destruct (String.eqb_spec (command c) "rewind") as [->|_]; [by eexists|done].
Qed.

Lemma commandCallback_other component pid c :
  dispatched c = false -> commandCallback component pid c = Done (Fulfilled tt).
Proof.
  unfold dispatched, isPlay, tolerated, commandCallback.
  destruct (String.eqb (capability c) "st.mediaPlayback"); [|done]. cbn.
  destruct (String.eqb (command c) "play"); [done|].
  destruct (String.eqb (command c) "pause"); [done|].
  destruct (String.eqb (command c) "fastForward"); [done|].
  by destruct (String.eqb (command c) "rewind").
Qed.

Lemma tolerated_not_play c : tolerated c = true -> isPlay c = false.
Proof.
  unfold tolerated, isPlay. intros [_ H]%andb_true_iff.
  destruct (String.eqb_spec (command c) "play") as [Heq|_]; [|by rewrite andb_false_r].
  by rewrite Heq in H.
Qed.

Lemma commandCallback_quiet spotify site component pid c :
  (isPlay c = true -> Spotify.play spotify site (playOptions pid) = Fulfilled tt) ->
  quiet spotify site (commandCallback component pid c).
Proof.
  intros Hplay. destruct (isPlay c) eqn:Hp.
  - rewrite commandCallback_play by done. cbn. intros r. by rewrite Hplay.
  - destruct (tolerated c) eqn:Ht.
    + by destruct (commandCallback_tolerated component pid c Ht) as [call ->].
    + rewrite commandCallback_other; [done|]. unfold dispatched. by rewrite Hp, Ht.
Qed.

(** ** Command handler: batches that cannot fail *)

Section quiet_runs.

Variable spotify : Spotify.WebApi.

Lemma settle_quiet b site :
  allQuiet spotify b -> allQuiet spotify (settle spotify b site) /\
  rejection (settle spotify b site) = rejection b.
Proof.
  intros Hq. destruct (promiseAt b site) as [[r|call resume]|] eqn:H.
  - by rewrite (settle_done _ _ _ _ H).
  - split.
    + intros site' p. destruct (decide (site' = site)) as [->|Hne].
      * rewrite (settle_promiseAt_pending _ _ _ _ _ H). by intros [= <-].
      * rewrite settle_promiseAt_ne by done. apply Hq.
    + rewrite (settle_pending _ _ _ _ _ H). cbn.
      pose proof (Hq _ _ H) as Hs. cbn in Hs. rewrite Hs. by destruct (rejection b).
  - by rewrite (settle_none _ _ _ H).
Qed.

Lemma run_quiet schedule : forall b,
  allQuiet spotify b -> rejection (foldl (settle spotify) b schedule) = rejection b.
Proof.
  induction schedule as [|site schedule IH]; intros b Hq; simpl; [done|].
  destruct (settle_quiet b site Hq) as [Hq' Hr]. by rewrite IH.
Qed.

Lemma run_idle_all schedule : forall b,
  (forall site, site ∈ schedule -> idle (promiseAt b site)) ->
  foldl (settle spotify) b schedule = b.
Proof.
  induction schedule as [|site schedule IH]; intros b H; simpl; [done|].
  assert (settle spotify b site = b) as ->.
  { specialize (H site (list_elem_of_here _ _)).
    destruct (promiseAt b site) as [[r|call resume]|] eqn:Hp; [|done|].
    - by eapply settle_done.
    - by eapply settle_none. }
  apply IH. intros site' Hin. apply H. by apply list_elem_of_further.
Qed.

End quiet_runs.

(** ** Command handler: the claims *)

Section commands.

Variable provider : string -> Spotify.WebApi.
Variable request : Request.

Let spotify := getSpotify provider request.

Lemma commandRequest_snoc schedule site :
  commandRequest provider (schedule ++ [site]) request [] =
  settle spotify (commandRequest provider schedule request []) site.
Proof. unfold commandRequest. apply run_snoc. Qed.

Lemma commandRequest_cons_after pre site post :
  commandRequest provider (pre ++ site :: post) request [] =
  foldl (settle spotify) (commandRequest provider (pre ++ [site]) request []) post.
Proof. unfold commandRequest. by rewrite (cons_middle site), app_assoc, foldl_app. Qed.

Lemma launch_entry i d :
  devices request !! i = Some d ->
  response (launch request []) !! i = Some (launchedEntry d).
Proof. intros H. rewrite launch_unfold. cbn. by rewrite list_lookup_fmap, H. Qed.

Lemma commandRequest_entry schedule i d :
  devices request !! i = Some d ->
  exists extra,
    response (commandRequest provider schedule request []) !! i =
    Some (withStates extra (launchedEntry d)).
Proof.
  intros H. apply run_grows; [apply rowsAppend_launch|by apply launch_entry].
Qed.

Lemma commandRequest_addressed schedule :
  addressed (response (commandRequest provider schedule request [])) =
  (fun d => (externalDeviceId d, ["main"])) <$> devices request.
Proof.
  unfold commandRequest. rewrite run_addressed by apply rowsAppend_launch.
  rewrite launch_unfold. cbn [response]. unfold addressed.
  by rewrite <- list_fmap_compose.
Qed.

Lemma promiseAt_before pre i j d c :
  devices request !! i = Some d -> commands d !! j = Some c -> (i, j) ∉ pre ->
  promiseAt (commandRequest provider pre request []) (i, j) =
  Some (commandCallback (i, "main") (externalIdToPlaylistDeviceId (externalDeviceId d)) c).
Proof.
  intros Hd Hc Hpre. unfold commandRequest. rewrite run_promiseAt_notin by done.
  rewrite promiseAt_launch, Hd. cbn. by rewrite Hc.
Qed.

Lemma outcome_rejected schedule e :
  rejection (commandRequest provider schedule request []) = Some e ->
  outcome (commandRequest provider schedule request []) = Some (Rejected e) /\
  (interactionType request = CommandRequest ->
   promiseHandler provider schedule request =
   Some {| statusCode := 500; body := ErrorPayload e |}).
Proof.
  intros H. assert (Ho : outcome (commandRequest provider schedule request []) = Some (Rejected e))
    by (unfold outcome; by rewrite H).
  split; [done|]. intros Hi. unfold promiseHandler, lambda. by rewrite Hi, Ho.
Qed.

(** A batch none of whose [play] calls is rejected is fulfilled by a
    complete schedule, whatever the other provider calls do. *)
Lemma outcome_fulfilled schedule :
  (forall site o, (site, Spotify.Play o) ∈ calls (launch request []) ->
                  Spotify.play spotify site o = Fulfilled tt) ->
  complete schedule (launch request []) ->
  outcome (commandRequest provider schedule request []) =
  Some (Fulfilled (response (commandRequest provider schedule request []))).
Proof.
  intros Hplay Hcomplete. unfold outcome.
  assert (Hq : allQuiet spotify (launch request [])).
  { intros [i j] p Hp. pose proof Hp as Hp'. rewrite promiseAt_launch in Hp'.
    destruct (devices request !! i) as [d|]; [|done]. cbn in Hp'.
    destruct (commands d !! j) as [c|]; [|done]. cbn in Hp'. injection Hp' as <-.
    apply commandCallback_quiet. intros Hc. apply Hplay.
    rewrite commandCallback_play in Hp by done. by eapply elem_of_calls_launch. }
  unfold commandRequest at 1. fold spotify. rewrite (run_quiet spotify schedule _ Hq).
  rewrite launch_unfold at 1. cbn [rejection].
  rewrite all_idle_done; [done|]. intros site. unfold commandRequest. apply run_idle.
  destruct (promiseAt (launch request []) site) as [[r|call resume]|] eqn:Hp;
    [by right| |by right].
  left. eapply Hcomplete, elem_of_calls_launch, Hp.
Qed.

(** A complete schedule settles the promise of the handler. *)
Lemma outcome_settles schedule :
  complete schedule (launch request []) ->
  exists r, outcome (commandRequest provider schedule request []) = Some r.
Proof.
  intros Hcomplete. unfold outcome.
  destruct (rejection _) as [e|]; [by eexists|].
  rewrite all_idle_done; [by eexists|]. intros site. unfold commandRequest. apply run_idle.
  destruct (promiseAt (launch request []) site) as [[r|call resume]|] eqn:Hp;
    [by right| |by right].
  left. eapply Hcomplete, elem_of_calls_launch, Hp.
Qed.

End commands.

(** C4: a [play] command of capability [st.mediaPlayback] on a device
    whose external id decodes to [pid] makes exactly one provider call,
    [play] with the queue of [pid] as context and its target as device.
    When that call is fulfilled the callback appends the state
    (main, st.mediaPlayback, playbackStatus, playing) to the entry of
    the device; when it is rejected nothing is recorded, and the
    handler is rejected, which the dispatcher answers with status 500. *)
Theorem play_dispatches_and_propagates (provider : string -> Spotify.WebApi)
    (request : Request) (i j : nat) (d : DeviceRequest) (c : Command) :
  devices request !! i = Some d ->
  commands d !! j = Some c ->
  isPlay c = true ->
  let pid := externalIdToPlaylistDeviceId (externalDeviceId d) in
  let options := {| Spotify.context_uri := playlistUri pid;
                    Spotify.device_id_play := deviceId pid |} in
  (forall schedule,
     callsAt (i, j) (commandRequest provider schedule request []) = [Spotify.Play options]) /\
  (forall pre, (i, j) ∉ pre ->
     let before := commandRequest provider pre request [] in
     let after := commandRequest provider (pre ++ [(i, j)]) request [] in
     exists entry,
       response before !! i = Some entry /\
       State.externalDeviceId entry = externalDeviceId d /\
       match Spotify.play (getSpotify provider request) (i, j) options with
       | Fulfilled _ =>
           response after = <[i := withStates [playbackStatus "playing"] entry]> (response before) /\
           rejection after = rejection before
       | Rejected e =>
           response after = response before /\
           rejection after = Some (default e (rejection before)) /\
           forall post, exists e',
             outcome (commandRequest provider (pre ++ (i, j) :: post) request []) =
             Some (Rejected e') /\
             (interactionType request = CommandRequest ->
              promiseHandler provider (pre ++ (i, j) :: post) request =
              Some {| statusCode := 500; body := ErrorPayload e' |})
       end).
Proof.
  intros Hd Hc Hplay pid options. split.
  - intros schedule. rewrite callsAt_commandRequest, promiseAt_launch, Hd. cbn. rewrite Hc. cbn.
    by rewrite commandCallback_play.
  - intros pre Hpre. cbv zeta.
    destruct (commandRequest_entry provider request pre i d Hd) as [extra Hentry].
    exists (withStates extra (launchedEntry d)). split; [exact Hentry|]. split; [reflexivity|].
    pose proof (promiseAt_before provider request pre i j d c Hd Hc Hpre) as Hp.
    rewrite commandCallback_play in Hp by done.
    rewrite commandRequest_snoc, (settle_pending _ _ _ _ _ Hp).
    set (before := commandRequest provider pre request []) in *.
    change (playOptions (externalIdToPlaylistDeviceId (externalDeviceId d))) with options.
    cbn [Spotify.perform].
    destruct (Spotify.play _ _ _) as [u|e] eqn:Hplayed; cbn [fst snd response rejection].
    + split; [|by destruct (rejection before)].
      rewrite addState_alter. apply list_eq. intros k.
      rewrite list_lookup_alter, list_lookup_insert.
      destruct (decide (i = k)) as [<-|Hne].
      * rewrite decide_True; [by rewrite Hentry|].
        split; [done|]. apply lookup_lt_is_Some. by eexists.
      * rewrite decide_False; [done|]. by intros [? _].
    + split; [done|]. split; [by destruct (rejection before)|].
      intros post. exists (default e (rejection before)).
      apply outcome_rejected. rewrite commandRequest_cons_after. apply run_rejection.
      rewrite commandRequest_snoc, (settle_pending _ _ _ _ _ Hp). fold before.
      cbn [Spotify.perform].
      change (playOptions (externalIdToPlaylistDeviceId (externalDeviceId d))) with options.
      rewrite Hplayed. cbn. by destruct (rejection before).
Qed.

Lemma play_dispatches_and_propagates_witness :
  callsAt (0, 0) (commandRequest (failingProvider true) [(0, 1); (0, 0)] sampleBatch []) =
  [ Spotify.Play {| Spotify.context_uri := Str "ctx1"; Spotify.device_id_play := Str "dev1" |} ].
Proof.
  apply (play_dispatches_and_propagates (failingProvider true) sampleBatch 0 0
           {| externalDeviceId := "dev1|ctx1";
              commands := [playCommand; pauseCommand; dimCommand] |} playCommand);
    reflexivity.
Defined.

(** The batch of the end-to-end scenario once the provider promise of
    its only call has settled, whichever way. *)
Lemma pauseScenario_settled provider schedule :
  (0, 0) ∈ schedule ->
  commandRequest provider schedule pauseScenario [] =
  {| response := [ {| State.externalDeviceId := "dev1|ctx1";
                      State.components := ["main"];
                      State.states := [playbackStatus "paused"] |} ];
     promises := [[Done (Fulfilled tt)]];
     calls := [((0, 0), Spotify.Pause {| Spotify.device_id_pause := Str "dev1" |})];
     rejection := None |}.
Proof.
  intros (pre & post & -> & Hpre)%list_elem_of_split_l.
  unfold commandRequest. rewrite foldl_app. rewrite (run_idle_all _ pre).
  - cbn [foldl]. apply run_idle_all. intros [[|i] [|k]] _; exact I.
  - intros [[|i] [|k]] Hin; try exact I. by destruct Hpre.
Qed.

(** C7: whatever the schedule and the provider, the response of the
    command handler has, in order, exactly one entry per device request,
    addressed by the external id of the request and with the single
    component [main].  A command matching no row of the dispatch table
    makes no provider call, its promise is fulfilled from the start and
    resuming at its site changes nothing; the entry of a request with
    only such commands keeps no state. *)
Theorem every_request_is_answered (provider : string -> Spotify.WebApi)
    (request : Request) (schedule : list CallSite) :
  addressed (response (commandRequest provider schedule request [])) =
    (fun d => (externalDeviceId d, ["main"])) <$> devices request /\
  (forall i j d c,
     devices request !! i = Some d -> commands d !! j = Some c ->
     dispatched c = false ->
     callsAt (i, j) (commandRequest provider schedule request []) = [] /\
     promiseAt (commandRequest provider schedule request []) (i, j) = Some (Done (Fulfilled tt)) /\
     commandRequest provider (schedule ++ [(i, j)]) request [] =
     commandRequest provider schedule request []) /\
  (forall i d,
     devices request !! i = Some d ->
     (forall c, c ∈ commands d -> dispatched c = false) ->
     response (commandRequest provider schedule request []) !! i = Some (launchedEntry d)).
Proof.
  split; [apply commandRequest_addressed|split].
  - intros i j d c Hd Hc Hother.
    assert (Hp : promiseAt (launch request []) (i, j) = Some (Done (Fulfilled tt))).
    { rewrite promiseAt_launch, Hd. cbn. rewrite Hc. cbn.
      by rewrite commandCallback_other. }
    split; [|split].
    + by rewrite callsAt_commandRequest, Hp.
    + unfold commandRequest. by apply run_promiseAt_done.
    + rewrite commandRequest_snoc. unfold commandRequest. by eapply run_done_noop.
  - intros i d Hd Hall. unfold commandRequest.
    rewrite run_idle_row; [by apply launch_entry|apply rowsAppend_launch|].
    intros j. rewrite promiseAt_launch, Hd. cbn.
    destruct (commands d !! j) as [c|] eqn:Hc; [|done]. cbn.
    rewrite commandCallback_other; [done|]. apply Hall, list_elem_of_lookup. by eexists.
Qed.

Lemma every_request_is_answered_witness :
  commandRequest (failingProvider true) ([(0, 1)] ++ [(0, 2)]) sampleBatch [] =
  commandRequest (failingProvider true) [(0, 1)] sampleBatch [].
Proof.
  apply (every_request_is_answered (failingProvider true) sampleBatch [(0, 1)]) with
    (d := {| externalDeviceId := "dev1|ctx1";
             commands := [playCommand; pauseCommand; dimCommand] |}) (c := dimCommand);
    reflexivity.
Defined.


(** * Further properties of the code *)

(** ** Identity codec *)

(** X1: whatever string is decoded, neither field of the result contains
    the delimiter. *)
Theorem decode_fields_delimiter_free (s t : string) :
  deviceId (externalIdToPlaylistDeviceId s) = Str t \/
  playlistUri (externalIdToPlaylistDeviceId s) = Str t ->
  Js.free_of delimiter t.
Proof.
  rewrite decode_shape. cbn [deviceId playlistUri]. intros [[= <-]|H].
  - apply before_free.
  - destruct (decide _); [done|]. injection H as <-. apply before_free.
Qed.

Lemma decode_fields_delimiter_free_witness : Js.free_of delimiter "b".
Proof. apply (decode_fields_delimiter_free "a|b|c" "b"). by right. Defined.

Lemma encode_decode_exact s :
  Js.occurrences delimiter s = 1 ->
  playlistDeviceIdToExternalId (externalIdToPlaylistDeviceId s) = s.
Proof.
  intros H1.
  assert (Hnz : Js.occurrences delimiter s <> 0) by lia.
  assert (Hf : Js.free_of delimiter (Js.after delimiter s)).
  { unfold Js.free_of. pose proof (occurrences_after delimiter s Hnz). lia. }
  rewrite decode_shape. destruct (decide _) as [|_]; [done|].
  rewrite encode_unfold. simpl Js.toString. rewrite (free_before _ _ Hf).
  symmetry. by apply before_after.
Qed.

(** X2: encoding what was decoded is a normal form: doing it a second
    time changes nothing, for every string. *)
Theorem encode_decode_idempotent (s : string) :
  let normal := playlistDeviceIdToExternalId (externalIdToPlaylistDeviceId s) in
  playlistDeviceIdToExternalId (externalIdToPlaylistDeviceId normal) = normal.
Proof. cbv zeta. apply encode_decode_exact, encode_decode_occurrences. Qed.

Lemma encode_injective t q t' q' :
  Js.free_of delimiter t -> Js.free_of delimiter t' ->
  playlistDeviceIdToExternalId {| deviceId := Str t; playlistUri := Str q |} =
  playlistDeviceIdToExternalId {| deviceId := Str t'; playlistUri := Str q' |} ->
  t = t' /\ q = q'.
Proof.
  intros Ht Ht'. rewrite !encode_unfold. simpl Js.toString. intros Heq. split.
  - rewrite <- (before_cut delimiter t q Ht), Heq. by apply before_cut.
  - rewrite <- (after_cut delimiter t q Ht), Heq. by apply after_cut.
Qed.

Lemma encoded_ids_equal t q t' q' :
  Js.free_of delimiter t -> Js.free_of delimiter t' ->
  playlistDeviceIdToExternalId {| deviceId := Str t; playlistUri := Str q |} =
  playlistDeviceIdToExternalId {| deviceId := Str t'; playlistUri := Str q' |} ->
  {| deviceId := Str t; playlistUri := Str q |} =
  {| deviceId := Str t'; playlistUri := Str q' |}.
Proof. intros Ht Ht' Heq. by destruct (encode_injective t q t' q' Ht Ht' Heq) as [-> ->]. Qed.

(** X3: two ids whose playback targets are free of the delimiter have
    the same encoding only if they are equal, whatever their queues
    contain. *)
Theorem encode_distinguishes (t q t' q' : string) :
  Js.free_of delimiter t -> Js.free_of delimiter t' ->
  playlistDeviceIdToExternalId {| deviceId := Str t; playlistUri := Str q |} =
  playlistDeviceIdToExternalId {| deviceId := Str t'; playlistUri := Str q' |} ->
  {| deviceId := Str t; playlistUri := Str q |} =
  {| deviceId := Str t'; playlistUri := Str q' |}.
Proof. apply encoded_ids_equal. Qed.

Lemma encode_distinguishes_witness :
  {| deviceId := Str "dev1"; playlistUri := Str "a|b" |} =
  {| deviceId := Str "dev1"; playlistUri := Str "a|b" |}.
Proof. apply (encode_distinguishes "dev1" "a|b" "dev1" "a|b"); reflexivity. Defined.

(** ** Device enumerator *)

Lemma crossProduct_lookup ps : forall ds a b d p,
  ds !! a = Some d -> ps !! b = Some p ->
  crossProduct ds ps !! (a * length ps + b) = Some (playlistDevice d p).
Proof.
  unfold crossProduct. intros ds. induction ds as [|d0 ds IH]; intros a b d p Hd Hp; [done|].
  rewrite bind_cons. destruct a as [|a]; cbn in Hd.
  - injection Hd as ->. change (0 * length ps + b) with b. rewrite lookup_app_l.
    + by rewrite list_lookup_fmap, Hp.
    + rewrite length_fmap. apply lookup_lt_is_Some. by eexists.
  - rewrite lookup_app_r; rewrite length_fmap; [|cbn; lia].
    replace (S a * length ps + b - length ps) with (a * length ps + b) by (cbn; lia).
    by apply IH.
Qed.

Lemma selected_spec d :
  selected d = true <->
  (exists s, Spotify.device_id d = Str s /\ s <> "") /\
  Spotify.device_name d = "Mobile Web Player".
Proof.
  unfold selected. rewrite andb_true_iff, String.eqb_eq. apply and_iff_compat_r.
  destruct (Spotify.device_id d) as [s| |]; cbn.
  - rewrite negb_true_iff, String.eqb_neq. split; [by eexists|by intros (? & [= <-] & ?)].
  - split; [done|by intros (? & ? & ?)].
  - split; [done|by intros (? & ? & ?)].
Qed.

(** X4: the enumerator lists the virtual devices target by target: with
    [n] playlists, the record of the [a]-th selected target and the
    [b]-th playlist sits at index [a * n + b], with the target id, the
    playlist uri, the display name built from both names and the target
    type as model. *)
Theorem enumeration_order (spotify : Spotify.WebApi)
    (ds : list Spotify.Device) (ps : list Spotify.Playlist)
    (a b : nat) (d : Spotify.Device) (p : Spotify.Playlist) :
  Spotify.getMyDevices spotify = Fulfilled ds ->
  Spotify.getUserPlaylists spotify = Fulfilled ps ->
  List.filter selected ds !! a = Some d ->
  ps !! b = Some p ->
  exists result,
    getPlaylistDevices spotify = Fulfilled result /\
    result !! (a * length ps + b) =
    Some {| id := {| deviceId := Spotify.device_id d;
                     playlistUri := Str (Spotify.playlist_uri p) |};
            name := "Playlist " +:+ Spotify.playlist_name p
                    +:+ " on" +:+ Js.nbsp +:+ Spotify.device_name d;
            model := Spotify.device_type d |}.
Proof.
  intros Hd Hp Ha Hb. eexists. split; [by apply getPlaylistDevices_spec|].
  by apply crossProduct_lookup.
Qed.

Lemma enumeration_order_witness :
  exists result,
    getPlaylistDevices (failingProvider true "token") = Fulfilled result /\
    result !! (0 * length samplePlaylists + 1) =
    Some {| id := {| deviceId := Str "dev1"; playlistUri := Str "spotify:playlist:b" |};
            name := "Playlist Evening on" +:+ Js.nbsp +:+ "Mobile Web Player";
            model := "Smartphone" |}.
Proof.
  apply (enumeration_order (failingProvider true "token") sampleDevices samplePlaylists 0 1
           {| Spotify.device_id := Str "dev1"; Spotify.device_name := "Mobile Web Player";
              Spotify.device_type := "Smartphone" |}
           {| Spotify.playlist_uri := "spotify:playlist:b";
              Spotify.playlist_name := "Evening" |});
    reflexivity.
Defined.

(** X5: a record is enumerated exactly when it is built from a reported
    playlist and a reported target that has a non-empty string id and
    the name "Mobile Web Player": targets with a [null] or empty id, or
    another name, never show up, and with no playlist nothing does. *)
Theorem enumeration_membership (spotify : Spotify.WebApi)
    (ds : list Spotify.Device) (ps : list Spotify.Playlist) :
  Spotify.getMyDevices spotify = Fulfilled ds ->
  Spotify.getUserPlaylists spotify = Fulfilled ps ->
  exists result,
    getPlaylistDevices spotify = Fulfilled result /\
    forall pd, pd ∈ result <->
      exists d p s,
        d ∈ ds /\ p ∈ ps /\
        Spotify.device_id d = Str s /\ s <> "" /\
        Spotify.device_name d = "Mobile Web Player" /\
        pd = {| id := {| deviceId := Str s; playlistUri := Str (Spotify.playlist_uri p) |};
                name := "Playlist " +:+ Spotify.playlist_name p
                        +:+ " on" +:+ Js.nbsp +:+ "Mobile Web Player";
                model := Spotify.device_type d |}.
Proof.
  intros Hd Hp. eexists. split; [by apply getPlaylistDevices_spec|].
  intros pd. unfold crossProduct. rewrite list_elem_of_bind. split.
  - intros (d & (p & -> & Hin)%list_elem_of_fmap & Hsel).
    apply list_elem_of_In, filter_In in Hsel as [Hdin Hsel].
    apply selected_spec in Hsel as [(s & Hs & Hne) Hname].
    exists d, p, s. rewrite <- list_elem_of_In in Hdin.
    repeat split; try done. unfold playlistDevice. by rewrite Hs, Hname.
  - intros (d & p & s & Hdin & Hpin & Hs & Hne & Hname & ->).
    exists d. split.
    + apply list_elem_of_fmap. exists p. split; [|done].
      unfold playlistDevice. by rewrite Hs, Hname.
    + apply list_elem_of_In, filter_In. split; [by apply list_elem_of_In|].
      apply selected_spec. split; [by exists s|done].
Qed.

Lemma enumeration_membership_witness :
  exists result,
    getPlaylistDevices (failingProvider true "token") = Fulfilled result /\
    forall pd, pd ∈ result <->
      exists d p s,
        d ∈ sampleDevices /\ p ∈ samplePlaylists /\
        Spotify.device_id d = Str s /\ s <> "" /\
        Spotify.device_name d = "Mobile Web Player" /\
        pd = {| id := {| deviceId := Str s; playlistUri := Str (Spotify.playlist_uri p) |};
                name := "Playlist " +:+ Spotify.playlist_name p
                        +:+ " on" +:+ Js.nbsp +:+ "Mobile Web Player";
                model := Spotify.device_type d |}.
Proof.
  apply (enumeration_membership (failingProvider true "token") sampleDevices samplePlaylists);
    reflexivity.
Defined.

(** ** Discovery and state-refresh handlers *)

Ltac settle_cases :=
  split; intros;
  repeat match goal with
         | H : _ \/ _ |- _ => destruct H
         | H : _ /\ _ |- _ => destruct H
         | H : exists _, _ |- _ => destruct H
         end;
  simplify_eq; eauto 8.

Lemma stateRefreshRequest_spec provider request response :
  stateRefreshRequest provider request response =
  devices ← getPlaylistDevices (getSpotify provider request);
  st ← Spotify.getMyCurrentPlaybackState (getSpotify provider request);
  mret (response ++
        ((fun d => {| State.externalDeviceId := playlistDeviceIdToExternalId (id d);
                      State.components := [];
                      State.states :=
                        [ supportedPlaybackCommands;
                          playbackStatus (if Spotify.is_playing st
                                          then "playing" else "paused") ] |})
           <$> devices)).
Proof.
  unfold stateRefreshRequest. destruct (getPlaylistDevices _) as [l|e]; [|done].
  cbn [mbind Settled_bind]. destruct (Spotify.getMyCurrentPlaybackState _) as [st|e]; [|done].
  cbn [mbind Settled_bind mret Settled_ret]. f_equal.
  rewrite <- foldl_push. by apply foldl_pointwise.
Qed.

Lemma getPlaylistDevices_rejected spotify e :
  getPlaylistDevices spotify = Rejected e <->
  Spotify.getMyDevices spotify = Rejected e \/
  ((exists ds, Spotify.getMyDevices spotify = Fulfilled ds) /\
   Spotify.getUserPlaylists spotify = Rejected e).
Proof.
  unfold getPlaylistDevices.
  destruct (Spotify.getMyDevices spotify) as [ds|e1];
    destruct (Spotify.getUserPlaylists spotify) as [ps|e2];
    cbn [mbind Settled_bind mret Settled_ret]; settle_cases.
Qed.

(** X6: the two read handlers fail exactly with the error of the first
    provider read that fails, reading the targets, then the playlists,
    then (state refresh only) the playback state; a failed playback-state
    read fails the state refresh even though the enumeration went
    through. *)
Theorem read_handlers_fail_with_first_error (provider : string -> Spotify.WebApi)
    (request : Request) (e : Error) :
  let spotify := getSpotify provider request in
  let enumeration_fails :=
    Spotify.getMyDevices spotify = Rejected e \/
    ((exists ds, Spotify.getMyDevices spotify = Fulfilled ds) /\
     Spotify.getUserPlaylists spotify = Rejected e) in
  (forall response,
     discoveryRequest provider request response = Rejected e <-> enumeration_fails) /\
  (forall response,
     stateRefreshRequest provider request response = Rejected e <->
     enumeration_fails \/
     ((exists ds, Spotify.getMyDevices spotify = Fulfilled ds) /\
      (exists ps, Spotify.getUserPlaylists spotify = Fulfilled ps) /\
      Spotify.getMyCurrentPlaybackState spotify = Rejected e)).
Proof.
  cbv zeta. split; intros response.
  - rewrite discoveryRequest_spec, <- getPlaylistDevices_rejected.
    destruct (getPlaylistDevices _); cbn [mbind Settled_bind mret Settled_ret]; settle_cases.
  - rewrite stateRefreshRequest_spec, <- getPlaylistDevices_rejected.
    unfold getPlaylistDevices.
    destruct (Spotify.getMyDevices _) as [ds|e1];
      destruct (Spotify.getUserPlaylists _) as [ps|e2];
      destruct (Spotify.getMyCurrentPlaybackState _) as [st|e3];
      cbn [mbind Settled_bind mret Settled_ret]; settle_cases.
Qed.

(** X7: discovery leaves the entries already in the response as they
    are and appends, in enumeration order, one announcement per virtual
    device: its encoded id, its display name, the fixed device profile,
    the manufacturer "Spotify" and its model. *)
Theorem discovery_appends_announcements (provider : string -> Spotify.WebApi)
    (request : Request) (response : Discovery.Response) (result : list PlaylistDevice) :
  getPlaylistDevices (getSpotify provider request) = Fulfilled result ->
  discoveryRequest provider request response =
  Fulfilled
    (response ++
     ((fun d => {| Discovery.externalDeviceId := playlistDeviceIdToExternalId (id d);
                   Discovery.friendlyName := name d;
                   Discovery.deviceHandlerType := "0284c595-fed5-4b00-9e02-6e85bb3b32fb";
                   Discovery.manufacturer := Some "Spotify";
                   Discovery.modelName_ := Some (model d) |}) <$> result)).
Proof. intros H. by rewrite discoveryRequest_spec, H. Qed.

Lemma discovery_appends_announcements_witness :
  discoveryRequest (failingProvider true) discoveryEnvelope [] =
  Fulfilled
    [ {| Discovery.externalDeviceId := "dev1|spotify:playlist:a";
         Discovery.friendlyName := "Playlist Morning on" +:+ Js.nbsp +:+ "Mobile Web Player";
         Discovery.deviceHandlerType := "0284c595-fed5-4b00-9e02-6e85bb3b32fb";
         Discovery.manufacturer := Some "Spotify";
         Discovery.modelName_ := Some "Smartphone" |};
      {| Discovery.externalDeviceId := "dev1|spotify:playlist:b";
         Discovery.friendlyName := "Playlist Evening on" +:+ Js.nbsp +:+ "Mobile Web Player";
         Discovery.deviceHandlerType := "0284c595-fed5-4b00-9e02-6e85bb3b32fb";
         Discovery.manufacturer := Some "Spotify";
         Discovery.modelName_ := Some "Smartphone" |} ].
Proof.
  apply (discovery_appends_announcements (failingProvider true) discoveryEnvelope []
           (crossProduct (List.filter selected sampleDevices) samplePlaylists)).
  reflexivity.
Defined.

(** X8: against one provider, the state refresh reports exactly the
    external ids that discovery announces, in the same order. *)
Theorem state_refresh_reports_discovered_devices (provider : string -> Spotify.WebApi)
    (request request' : Request)
    (announced : Discovery.Response) (reported : State.Response) :
  getSpotify provider request = getSpotify provider request' ->
  discoveryRequest provider request [] = Fulfilled announced ->
  stateRefreshRequest provider request' [] = Fulfilled reported ->
  State.externalDeviceId <$> reported = Discovery.externalDeviceId <$> announced.
Proof.
  intros Hsame. rewrite discoveryRequest_spec, stateRefreshRequest_spec, Hsame.
  destruct (getPlaylistDevices _) as [l|e]; [|done].
  cbn [mbind Settled_bind]. destruct (Spotify.getMyCurrentPlaybackState _) as [st|e]; [|done].
  cbn [mbind Settled_bind mret Settled_ret]. intros [= <-] [= <-].
  rewrite ?app_nil_l, <- !list_fmap_compose. done.
Qed.

Lemma state_refresh_reports_discovered_devices_witness :
  State.externalDeviceId <$>
    [ {| State.externalDeviceId := "dev1|spotify:playlist:a"; State.components := [];
         State.states := [supportedPlaybackCommands; playbackStatus "paused"] |};
      {| State.externalDeviceId := "dev1|spotify:playlist:b"; State.components := [];
         State.states := [supportedPlaybackCommands; playbackStatus "paused"] |} ]
  = Discovery.externalDeviceId <$>
    (announcement <$> crossProduct (List.filter selected sampleDevices) samplePlaylists).
Proof.
  apply (state_refresh_reports_discovered_devices (failingProvider false)
           discoveryEnvelope discoveryEnvelope); reflexivity.
Defined.

(** X9: when the selected targets have distinct ids free of the
    delimiter and the playlists distinct uris, discovery announces
    pairwise distinct external ids. *)
Theorem discovery_ids_distinct (provider : string -> Spotify.WebApi) (request : Request)
    (ds : list Spotify.Device) (ps : list Spotify.Playlist) :
  Spotify.getMyDevices (getSpotify provider request) = Fulfilled ds ->
  Spotify.getUserPlaylists (getSpotify provider request) = Fulfilled ps ->
  NoDup (Spotify.device_id <$> List.filter selected ds) ->
  NoDup (Spotify.playlist_uri <$> ps) ->
  (forall d s, d ∈ List.filter selected ds -> Spotify.device_id d = Str s ->
               Js.free_of delimiter s) ->
  exists announcements,
    discoveryRequest provider request [] = Fulfilled announcements /\
    NoDup (Discovery.externalDeviceId <$> announcements).
Proof.
  intros Hd Hp Hds Hps Hfree. eexists. rewrite discoveryRequest_spec.
  rewrite (getPlaylistDevices_spec _ ds ps Hd Hp). cbn [mbind Settled_bind mret Settled_ret].
  split; [done|]. rewrite app_nil_l, <- list_fmap_compose.
  change (Discovery.externalDeviceId ∘ announcement)
    with (playlistDeviceIdToExternalId ∘ id).
  rewrite list_fmap_compose. apply NoDup_fmap_2_strong; [|by apply NoDup_crossProduct_ids].
  intros x y Hx Hy Heq. rewrite crossProduct_ids in Hx, Hy.
  apply list_elem_of_bind in Hx as (d1 & (p1 & -> & _)%list_elem_of_fmap & Hd1).
  apply list_elem_of_bind in Hy as (d2 & (p2 & -> & _)%list_elem_of_fmap & Hd2).
  assert (Hs : forall d, d ∈ List.filter selected ds ->
                 exists s, Spotify.device_id d = Str s /\ Js.free_of delimiter s).
  { intros d Hin. pose proof Hin as Hsel.
    apply list_elem_of_In, filter_In in Hsel as [_ Hsel].
    apply selected_spec in Hsel as [(s & Hs & _) _]. exists s. split; [done|]. by eapply Hfree. }
  destruct (Hs d1 Hd1) as (s1 & E1 & F1), (Hs d2 Hd2) as (s2 & E2 & F2).
  rewrite E1, E2 in *. by apply encoded_ids_equal.
Qed.

Lemma discovery_ids_distinct_witness :
  exists announcements,
    discoveryRequest (failingProvider true) discoveryEnvelope [] = Fulfilled announcements /\
    NoDup (Discovery.externalDeviceId <$> announcements).
Proof.
  apply (discovery_ids_distinct (failingProvider true) discoveryEnvelope
           sampleDevices samplePlaylists); try reflexivity.
  - apply (bool_decide_unpack _). by vm_compute.
  - apply (bool_decide_unpack _). by vm_compute.
  - intros d s Hin Hs.
    change (List.filter selected sampleDevices)
      with [ {| Spotify.device_id := Str "dev1"; Spotify.device_name := "Mobile Web Player";
                Spotify.device_type := "Smartphone" |} ] in Hin.
    apply list_elem_of_singleton in Hin as ->. injection Hs as <-. reflexivity.
Defined.

(** ** Request dispatcher *)

(** X19: once the provider reads have settled, a discovery envelope is
    answered whatever the schedule, and in each of the three ways the
    reads can settle: with status 200 and exactly one announcement per
    enumerated virtual device when targets and playlists are reported,
    with status 500 and the error of the targets read when that read is
    rejected, and with status 500 and the error of the playlists read
    when the targets are reported and the playlists read is rejected. *)
Theorem discovery_envelope_is_answered (provider : string -> Spotify.WebApi)
    (schedule : list CallSite) (request : Request) :
  interactionType request = DiscoveryRequest ->
  (forall ds ps,
     Spotify.getMyDevices (getSpotify provider request) = Fulfilled ds ->
     Spotify.getUserPlaylists (getSpotify provider request) = Fulfilled ps ->
     exists announcements,
       promiseHandler provider schedule request =
       Some {| statusCode := 200; body := DiscoveryPayload announcements |} /\
       announcements = announcement <$> crossProduct (List.filter selected ds) ps /\
       length announcements = length (List.filter selected ds) * length ps) /\
  (forall e,
     Spotify.getMyDevices (getSpotify provider request) = Rejected e ->
     promiseHandler provider schedule request =
     Some {| statusCode := 500; body := ErrorPayload e |}) /\
  (forall ds e,
     Spotify.getMyDevices (getSpotify provider request) = Fulfilled ds ->
     Spotify.getUserPlaylists (getSpotify provider request) = Rejected e ->
     promiseHandler provider schedule request =
     Some {| statusCode := 500; body := ErrorPayload e |}).
Proof.
  intros Hi. unfold promiseHandler, lambda. rewrite Hi, discoveryRequest_spec.
  split; [|split].
  - intros ds ps Hd Hp. rewrite (getPlaylistDevices_spec _ ds ps Hd Hp).
    cbn [mbind Settled_bind mret Settled_ret]. eexists. split; [done|].
    rewrite app_nil_l. split; [done|]. by rewrite length_fmap, length_crossProduct.
  - intros e He. unfold getPlaylistDevices. by rewrite He.
  - intros ds e Hd He. unfold getPlaylistDevices. by rewrite Hd, He.
Qed.

Lemma discovery_envelope_is_answered_witness :
  exists announcements,
    promiseHandler (failingProvider true) [] discoveryEnvelope =
    Some {| statusCode := 200; body := DiscoveryPayload announcements |} /\
    announcements =
      announcement <$> crossProduct (List.filter selected sampleDevices) samplePlaylists /\
    length announcements = length (List.filter selected sampleDevices) * length samplePlaylists.
Proof.
  apply (discovery_envelope_is_answered (failingProvider true) [] discoveryEnvelope);
    reflexivity.
Defined.

(** ** Command handler: what each callback does *)

Lemma callOf_awaited component pid c :
  awaited (commandCallback component pid c) = callOf pid c.
Proof.
  unfold commandCallback, callOf, isPlay, tolerated.
  destruct (String.eqb (capability c) "st.mediaPlayback"); [|done]. cbn.
  destruct (String.eqb (command c) "play"); [done|].
  destruct (String.eqb (command c) "pause"); [done|].
  destruct (String.eqb (command c) "fastForward"); [done|].
  by destruct (String.eqb (command c) "rewind").
Qed.

Lemma callOf_dispatched pid c : is_Some (callOf pid c) <-> dispatched c = true.
Proof.
  unfold callOf, dispatched. destruct (isPlay c); cbn; [by split; eauto|].
  destruct (tolerated c); cbn.
  - split; [done|]. intros _.
    destruct (String.eqb (command c) "pause"); [by eexists|].
    destruct (String.eqb (command c) "fastForward"); by eexists.
  - split; [by intros [? ?]|done].
Qed.

(** What resuming a launched callback does to the response and to its
    own promise. *)
Lemma commandCallback_resume spotify site h pid c call resume :
  commandCallback (h, "main") pid c = Pending call resume ->
  forall r,
    (resume (Spotify.perform spotify site call) r).1 =
      alter (withStates (recorded spotify site pid c)) h r /\
    (resume (Spotify.perform spotify site call) r).2 =
      from_option Rejected (Fulfilled tt) (rejectedWith spotify site pid c).
Proof.
  intros Hcb r. unfold recorded, rejectedWith. destruct (isPlay c) eqn:Hp.
  - rewrite commandCallback_play in Hcb by done. injection Hcb as <- <-.
    cbn [Spotify.perform]. destruct (Spotify.play _ _ _) as [u|e]; cbn [fst snd].
    + by rewrite addState_alter.
    + split; [|done]. symmetry. apply list_alter_id, withStates_nil.
  - destruct (tolerated c) eqn:Ht.
    + destruct (commandCallback_tolerated (h, "main") pid c Ht) as [call' Hcb'].
      rewrite Hcb' in Hcb. injection Hcb as <- <-. cbn [fst snd]. by rewrite addState_alter.
    + rewrite commandCallback_other in Hcb; [done|]. unfold dispatched. by rewrite Hp, Ht.
Qed.

Lemma decode_encode_helper t q :
  Js.free_of delimiter t -> Js.free_of delimiter q ->
  externalIdToPlaylistDeviceId
    (playlistDeviceIdToExternalId {| deviceId := Str t; playlistUri := Str q |})
  = {| deviceId := Str t; playlistUri := Str q |}.
Proof.
  intros Ht Hq. rewrite encode_unfold. simpl Js.toString.
  unfold externalIdToPlaylistDeviceId, Js.split.
  rewrite (pieces_cut delimiter t q Ht), (pieces_free delimiter q Hq).
  reflexivity.
Qed.

Lemma callsAt_command provider schedule request i j d c :
  devices request !! i = Some d -> commands d !! j = Some c ->
  callsAt (i, j) (commandRequest provider schedule request []) =
  option_list (callOf (externalIdToPlaylistDeviceId (externalDeviceId d)) c).
Proof.
  intros Hd Hc. rewrite callsAt_commandRequest, promiseAt_launch, Hd. cbn. rewrite Hc. cbn.
  by rewrite callOf_awaited.
Qed.

(** X10: a [pause] command makes exactly one provider call, [pause] on
    the playback target of the decoded id (the queue plays no part);
    [fastForward] and [rewind] make exactly one call each, [skipToNext]
    and [skipToPrevious], which name no target at all. *)
Theorem tolerated_commands_call (provider : string -> Spotify.WebApi)
    (schedule : list CallSite) (request : Request)
    (i j : nat) (d : DeviceRequest) (c : Command) :
  devices request !! i = Some d ->
  commands d !! j = Some c ->
  capability c = "st.mediaPlayback" ->
  let made := callsAt (i, j) (commandRequest provider schedule request []) in
  (command c = "pause" ->
   made = [ Spotify.Pause
              {| Spotify.device_id_pause :=
                   deviceId (externalIdToPlaylistDeviceId (externalDeviceId d)) |} ]) /\
  (command c = "fastForward" -> made = [Spotify.SkipToNext]) /\
  (command c = "rewind" -> made = [Spotify.SkipToPrevious]).
Proof.
  intros Hd Hc Hcap. cbv zeta. rewrite (callsAt_command _ _ _ _ _ _ _ Hd Hc).
  unfold callOf, isPlay, tolerated. rewrite Hcap.
  repeat split; intros ->; reflexivity.
Qed.

Lemma tolerated_commands_call_witness :
  callsAt (0, 1) (commandRequest (failingProvider true) [] sampleBatch []) =
  [ Spotify.Pause {| Spotify.device_id_pause := Str "dev1" |} ].
Proof.
  apply (tolerated_commands_call (failingProvider true) [] sampleBatch 0 1
           {| externalDeviceId := "dev1|ctx1";
              commands := [playCommand; pauseCommand; dimCommand] |} pauseCommand);
    reflexivity.
Defined.

(** X11: a [play] command addressed to the external id under which a
    virtual device is announced (target id and playlist uri free of the
    delimiter) calls the provider with exactly that target and that
    playlist. *)
Theorem play_reaches_discovered_device (provider : string -> Spotify.WebApi)
    (schedule : list CallSite) (request : Request)
    (i j : nat) (d : DeviceRequest) (c : Command) (pd : PlaylistDevice) (t q : string) :
  devices request !! i = Some d ->
  commands d !! j = Some c ->
  isPlay c = true ->
  id pd = {| deviceId := Str t; playlistUri := Str q |} ->
  Js.free_of delimiter t -> Js.free_of delimiter q ->
  externalDeviceId d = Discovery.externalDeviceId (announcement pd) ->
  callsAt (i, j) (commandRequest provider schedule request []) =
  [ Spotify.Play {| Spotify.context_uri := Str q; Spotify.device_id_play := Str t |} ].
Proof.
  intros Hd Hc Hplay Hpd Ht Hq Hid. rewrite (callsAt_command _ _ _ _ _ _ _ Hd Hc).
  unfold callOf. rewrite Hplay, Hid. cbn [announcement Discovery.externalDeviceId].
  by rewrite Hpd, decode_encode_helper.
Qed.

Lemma play_reaches_discovered_device_witness :
  callsAt (0, 0) (commandRequest (failingProvider true) [] sampleBatch []) =
  [ Spotify.Play {| Spotify.context_uri := Str "ctx1"; Spotify.device_id_play := Str "dev1" |} ].
Proof.
  apply (play_reaches_discovered_device (failingProvider true) [] sampleBatch 0 0
           {| externalDeviceId := "dev1|ctx1";
              commands := [playCommand; pauseCommand; dimCommand] |} playCommand
           {| id := {| deviceId := Str "dev1"; playlistUri := Str "ctx1" |};
              name := "Playlist ctx1 on" +:+ Js.nbsp +:+ "Mobile Web Player"; model := "Smartphone" |}
           "dev1" "ctx1");
    reflexivity.
Defined.

(** X12: the handler does not validate the external id: for an id
    without a delimiter a [play] command still calls the provider, with
    the whole id as target and an [undefined] context. *)
Theorem play_on_id_without_delimiter (provider : string -> Spotify.WebApi)
    (schedule : list CallSite) (request : Request)
    (i j : nat) (d : DeviceRequest) (c : Command) :
  devices request !! i = Some d ->
  commands d !! j = Some c ->
  isPlay c = true ->
  Js.free_of delimiter (externalDeviceId d) ->
  callsAt (i, j) (commandRequest provider schedule request []) =
  [ Spotify.Play {| Spotify.context_uri := Undefined;
                    Spotify.device_id_play := Str (externalDeviceId d) |} ].
Proof.
  intros Hd Hc Hplay Hfree. rewrite (callsAt_command _ _ _ _ _ _ _ Hd Hc).
  unfold callOf. rewrite Hplay, decode_shape, (free_before _ _ Hfree).
  destruct (decide _) as [|Hn]; [done|]. by destruct Hn.
Qed.

Lemma play_on_id_without_delimiter_witness :
  callsAt (0, 0)
    (commandRequest (failingProvider true) []
       {| interactionType := CommandRequest; authentication := {| token := "token" |};
          devices := [ {| externalDeviceId := "dev1"; commands := [playCommand] |} ] |} []) =
  [ Spotify.Play {| Spotify.context_uri := Undefined; Spotify.device_id_play := Str "dev1" |} ].
Proof.
  apply (play_on_id_without_delimiter (failingProvider true) []
           {| interactionType := CommandRequest; authentication := {| token := "token" |};
              devices := [ {| externalDeviceId := "dev1"; commands := [playCommand] |} ] |}
           0 0 {| externalDeviceId := "dev1"; commands := [playCommand] |} playCommand);
    reflexivity.
Defined.

(** ** Command handler: what a schedule leaves behind *)

Section effects.

Variable provider : string -> Spotify.WebApi.
Variable request : Request.

Lemma promiseAt_launch_command i j d c :
  devices request !! i = Some d -> commands d !! j = Some c ->
  promiseAt (launch request []) (i, j) =
  Some (commandCallback (i, "main") (externalIdToPlaylistDeviceId (externalDeviceId d)) c).
Proof. intros Hd Hc. rewrite promiseAt_launch, Hd. cbn. by rewrite Hc. Qed.

Lemma promiseAt_launch_inv site p :
  promiseAt (launch request []) site = Some p ->
  exists d c,
    devices request !! site.1 = Some d /\ commands d !! site.2 = Some c /\
    p = commandCallback (site.1, "main")
          (externalIdToPlaylistDeviceId (externalDeviceId d)) c.
Proof.
  destruct site as [i j]. rewrite promiseAt_launch. cbn [fst snd].
  destruct (devices request !! i) as [d|] eqn:Hd; [|done]. cbn [mbind option_bind].
  destruct (commands d !! j) as [c|] eqn:Hc; [|done]. cbn [mbind option_bind].
  intros [= <-]. exists d, c. by rewrite Hc.
Qed.

(** A promise found suspended during a run is the one launched there. *)
Lemma run_pending_launched schedule site call resume : forall b,
  promiseAt (foldl (settle (getSpotify provider request)) b schedule) site
    = Some (Pending call resume) ->
  promiseAt b site = Some (Pending call resume).
Proof.
  induction schedule as [|site' schedule IH]; intros b H; [done|].
  cbn [foldl] in H. apply IH in H. destruct (decide (site = site')) as [<-|Hne].
  - pose proof (settle_idle_here (getSpotify provider request) b site) as Hi.
    by rewrite H in Hi.
  - by rewrite settle_promiseAt_ne in H.
Qed.

(** One more settlement, in terms of the command launched at the site. *)
Lemma commandRequest_step schedule site :
  let b := commandRequest provider schedule request [] in
  let b' := commandRequest provider (schedule ++ [site]) request [] in
  (idle (promiseAt b site) /\ b' = b) \/
  (~ idle (promiseAt (launch request []) site) /\ (site ∉ schedule) /\
   response b' = alter (withStates (contribution provider request site)) site.1 (response b) /\
   rejection b' = match rejection b with
                  | Some e => Some e
                  | None => failure provider request site
                  end).
Proof.
  cbv zeta. rewrite commandRequest_snoc.
  destruct (promiseAt (commandRequest provider schedule request []) site)
    as [[r|call resume]|] eqn:Hp.
  - left. split; [done|]. by eapply settle_done.
  - right. pose proof Hp as Hl. apply run_pending_launched in Hl.
    split; [rewrite Hl; by intros []|]. split.
    { intros Hin. pose proof (run_idle (getSpotify provider request) schedule site
                                (launch request []) (or_introl Hin)) as Hi.
      unfold commandRequest in Hp. by rewrite Hp in Hi. }
    destruct (promiseAt_launch_inv _ _ Hl) as (d & c & Hd & Hc & Hcb).
    rewrite (settle_pending _ _ _ _ _ Hp). cbn [response rejection].
    destruct (commandCallback_resume (getSpotify provider request) site _ _ _ _ _
                (eq_sym Hcb) (response (commandRequest provider schedule request [])))
      as [-> ->].
    unfold contribution, failure. rewrite Hd. cbn. rewrite Hc. cbn. split; [done|].
    destruct (rejection _); [done|]. by destruct (rejectedWith _ _ _ _).
  - left. split; [done|]. by eapply settle_none.
Qed.

(** The batch after a schedule: every entry holds, in the order of
    settlement, what the callbacks of its own row recorded, and the
    rejection is that of the first callback to reject. *)
Lemma commandRequest_effects schedule :
  exists settled,
    effective request schedule settled /\
    (forall i,
       response (commandRequest provider schedule request []) !! i =
       (fun d => withStates
                   (mjoin (contribution provider request
                             <$> filter (fun site => site.1 = i) settled))
                   (launchedEntry d)) <$> devices request !! i) /\
    rejection (commandRequest provider schedule request []) =
      head (omap (failure provider request) settled).
Proof.
  induction schedule as [|site schedule (settled & [Hnd Hin] & Hresp & Hrej)] using rev_ind.
  - exists []. split; [split; [constructor|]|split].
    + intros site. split; [by intros ?%elem_of_nil|by intros [?%elem_of_nil _]].
    + intros i. unfold commandRequest. cbn [foldl]. rewrite launch_unfold. cbn [response].
      rewrite list_lookup_fmap. destruct (devices request !! i); [|done]. cbn.
      by rewrite withStates_nil.
    + unfold commandRequest. cbn [foldl]. by rewrite launch_unfold.
  - destruct (commandRequest_step schedule site) as [[Hidle ->]|(Hpend & Hnew & -> & ->)].
    + exists settled. split; [split; [done|]|by split].
      intros site'. rewrite Hin, elem_of_app, list_elem_of_singleton. split; [tauto|].
      intros [[H| ->] Hp]; [done|]. split; [|done].
      destruct (decide (site ∈ schedule)) as [|Hnot]; [done|]. destruct Hp.
      unfold commandRequest in Hidle. by rewrite run_promiseAt_notin in Hidle.
    + assert (Hfresh : site ∉ settled) by (rewrite Hin; tauto).
      exists (settled ++ [site]). split; [split|split].
      * apply NoDup_app. split; [done|]. split; [|apply NoDup_singleton].
        intros x Hx ->%list_elem_of_singleton. done.
      * intros site'. rewrite !elem_of_app, Hin, !list_elem_of_singleton. split.
        -- intros [[? ?]| ->]; tauto.
        -- intros [[?| ->] ?]; tauto.
      * intros i. rewrite filter_app, fmap_app, join_app, (filter_singleton _ site []).
        rewrite list_lookup_alter, Hresp.
        destruct (decide (site.1 = i)) as [<-|Hne].
        -- rewrite ?decide_True by done.
           destruct (devices request !! site.1); [|done]. cbn.
           by rewrite withStates_withStates, app_nil_r.
        -- rewrite ?decide_False by done. cbn. rewrite app_nil_r. apply Hresp.
      * rewrite omap_app, head_app, Hrej. destruct (head _); [done|].
        cbn. by destruct (failure provider request site).
Qed.

End effects.

(** ** Command handler: the outcome of a batch *)

Section outcomes.

Variable provider : string -> Spotify.WebApi.
Variable request : Request.

Lemma done_promiseAt b site p :
  forallb (forallb isDone) (promises b) = true ->
  promiseAt b site = Some p -> isDone p = true.
Proof.
  intros Hall Hp. unfold promiseAt in Hp.
  destruct (promises b !! site.1) as [row|] eqn:Hrow; [|done]. cbn in Hp.
  rewrite forallb_forall in Hall.
  assert (Hr : forallb isDone row = true).
  { apply Hall, list_elem_of_In, list_elem_of_lookup. by eexists. }
  rewrite forallb_forall in Hr. apply Hr, list_elem_of_In, list_elem_of_lookup. by eexists.
Qed.

Lemma calls_launch_pending site call :
  (site, call) ∈ calls (launch request []) ->
  exists resume, promiseAt (launch request []) site = Some (Pending call resume).
Proof.
  intros Hin.
  assert (Hc : call ∈ callsAt site (launch request [])).
  { unfold callsAt. apply list_elem_of_fmap. exists (site, call). split; [done|].
    by apply list_elem_of_filter. }
  rewrite callsAt_launch in Hc.
  destruct (promiseAt (launch request []) site) as [[r|call' resume]|]; cbn in Hc;
    try by apply elem_of_nil in Hc.
  apply list_elem_of_singleton in Hc as ->. by eexists.
Qed.

Lemma idle_contribution site :
  idle (promiseAt (launch request []) site) -> contribution provider request site = [].
Proof.
  destruct site as [i j]. rewrite promiseAt_launch. unfold contribution. cbn [fst snd].
  destruct (devices request !! i) as [d|]; [|done]. cbn [mbind option_bind].
  destruct (commands d !! j) as [c|]; [|done]. cbn [mbind option_bind default idle].
  destruct (commandCallback _ _ c) as [r|call resume] eqn:Hcb; [|done]. intros _.
  pose proof (callOf_awaited (i, "main")
                (externalIdToPlaylistDeviceId (externalDeviceId d)) c) as Ha.
  rewrite Hcb in Ha. cbn in Ha.
  assert (Hd : dispatched c = false).
  { destruct (dispatched c) eqn:E; [|done].
    apply (callOf_dispatched (externalIdToPlaylistDeviceId (externalDeviceId d))) in E.
    rewrite <- Ha in E. by destruct E. }
  unfold dispatched in Hd. apply orb_false_iff in Hd as [Hp Ht].
  unfold recorded. by rewrite Hp, Ht.
Qed.

Lemma failure_pending site e :
  failure provider request site = Some e ->
  ~ idle (promiseAt (launch request []) site).
Proof.
  destruct site as [i j]. rewrite promiseAt_launch. unfold failure. cbn [fst snd].
  destruct (devices request !! i) as [d|]; [|done]. cbn [mbind option_bind].
  destruct (commands d !! j) as [c|]; [|done]. cbn [mbind option_bind].
  unfold rejectedWith. destruct (isPlay c) eqn:Hp; [|done]. intros _.
  rewrite commandCallback_play by done. by intros [].
Qed.

Lemma omap_none {A B} (f : A -> option B) (l : list A) :
  (forall x, x ∈ l -> f x = None) -> omap f l = [].
Proof.
  induction l as [|x l IH]; intros H; [done|]. cbn.
  rewrite (H x) by apply list_elem_of_here. apply IH. intros y Hy. apply H.
  by apply list_elem_of_further.
Qed.

(** X13: the handler is rejected with the error of the first rejected
    [play] call in the order of settlement, and it is rejected by
    nothing else: a rejected handler always carries the error of a
    [play] call of the schedule that the provider rejected. *)
Theorem handler_rejected_by_first_failed_play (schedule : list CallSite) (e : Error) :
  (forall pre site post,
     schedule = pre ++ site :: post ->
     failure provider request site = Some e ->
     (forall site', site' ∈ pre -> failure provider request site' = None) ->
     outcome (commandRequest provider schedule request []) = Some (Rejected e)) /\
  (outcome (commandRequest provider schedule request []) = Some (Rejected e) ->
   exists i j d c,
     (i, j) ∈ schedule /\ devices request !! i = Some d /\ commands d !! j = Some c /\
     isPlay c = true /\
     Spotify.play (getSpotify provider request) (i, j)
       (playOptions (externalIdToPlaylistDeviceId (externalDeviceId d))) = Rejected e).
Proof.
  split.
  - intros pre site post -> Hfail Hpre.
    apply outcome_rejected. rewrite commandRequest_cons_after. apply run_rejection.
    assert (Hnone : rejection (commandRequest provider pre request []) = None).
    { destruct (commandRequest_effects provider request pre) as (settled & [_ Hin] & _ & ->).
      rewrite omap_none; [done|]. intros x Hx. apply Hpre. by apply Hin in Hx as [? _]. }
    destruct (commandRequest_step provider request pre site) as [[Hidle _]|(_ & _ & _ & ->)].
    + assert (Hnot : site ∉ pre) by (intros Hin; by rewrite (Hpre _ Hin) in Hfail).
      unfold commandRequest in Hidle. rewrite run_promiseAt_notin in Hidle by done.
      by apply failure_pending in Hfail.
    + by rewrite Hnone.
  - unfold outcome.
    destruct (commandRequest_effects provider request schedule) as (settled & [_ Hin] & _ & ->).
    destruct (head _) as [e'|] eqn:Hhead; [|by destruct (forallb _ _)]. intros [= ->].
    apply head_Some_elem_of, list_elem_of_omap in Hhead as ([i j] & Hs & Hf).
    apply Hin in Hs as [Hs _]. unfold failure in Hf. cbn [fst snd] in Hf.
    destruct (devices request !! i) as [d|] eqn:Hd; [|done]. cbn [mbind option_bind] in Hf.
    destruct (commands d !! j) as [c|] eqn:Hc; [|done]. cbn [mbind option_bind] in Hf.
    unfold rejectedWith in Hf. destruct (isPlay c) eqn:Hp; [|done].
    exists i, j, d, c. repeat split; try done.
    by destruct (Spotify.play _ _ _); simplify_eq.
Qed.

(** A fulfilled handler has seen every provider call of the batch
    settle, and its value is the response at that point. *)
Lemma outcome_fulfilled_inv schedule r :
  outcome (commandRequest provider schedule request []) = Some (Fulfilled r) ->
  complete schedule (launch request []) /\
  r = response (commandRequest provider schedule request []).
Proof.
  unfold outcome.
  destruct (rejection _) as [e|] eqn:Hrej; [done|].
  destruct (forallb _ _) eqn:Hall; [|done]. intros [= <-]. split; [|done].
  intros site call Hin. destruct (decide (site ∈ schedule)) as [|Hnot]; [done|].
  destruct (calls_launch_pending site call Hin) as [resume Hp].
  assert (Hb : promiseAt (commandRequest provider schedule request []) site
               = Some (Pending call resume))
    by (unfold commandRequest; by rewrite run_promiseAt_notin).
  by apply (done_promiseAt _ _ _ Hall) in Hb.
Qed.

(** X14: the handler is fulfilled only once every provider call of the
    batch has settled and no [play] call of the schedule was rejected;
    its value is the response at that point. *)
Theorem handler_fulfilled_only_when_settled (schedule : list CallSite) (r : State.Response) :
  outcome (commandRequest provider schedule request []) = Some (Fulfilled r) ->
  complete schedule (launch request []) /\
  (forall site, site ∈ schedule -> failure provider request site = None) /\
  r = response (commandRequest provider schedule request []).
Proof.
  intros Hout. destruct (outcome_fulfilled_inv schedule r Hout) as [Hcomplete Hr].
  split; [done|]. split; [|done].
  intros site Hin. destruct (failure provider request site) as [e|] eqn:Hf; [|done].
  assert (Hrej : rejection (commandRequest provider schedule request []) = None).
  { unfold outcome in Hout. by destruct (rejection _). }
  destruct (commandRequest_effects provider request schedule)
    as (settled & [_ Hmem] & _ & Hhead).
  rewrite Hrej in Hhead. symmetry in Hhead. apply head_None in Hhead.
  assert (Hs : site ∈ settled) by (apply Hmem; split; [done|by eapply failure_pending]).
  assert (He : e ∈ omap (failure provider request) settled)
    by (apply list_elem_of_omap; by exists site).
  rewrite Hhead in He. by apply elem_of_nil in He.
Qed.

Lemma join_filter_silent {A B} (f : A -> list B) (P : A -> Prop)
    `{forall x, Decision (P x)} (l : list A) :
  (forall x, x ∈ l -> ~ P x -> f x = []) ->
  mjoin (f <$> filter P l) = mjoin (f <$> l).
Proof.
  induction l as [|x l IH]; intros Hs; [done|].
  rewrite filter_cons. destruct (decide (P x)) as [Hp|Hn]; csimpl.
  - f_equal. apply IH. intros y Hy. apply Hs. by apply list_elem_of_further.
  - rewrite (Hs x) by (done || apply list_elem_of_here). cbn.
    apply IH. intros y Hy. apply Hs. by apply list_elem_of_further.
Qed.

Lemma row_contributions i d :
  devices request !! i = Some d ->
  contribution provider request <$> ((fun j => (i, j)) <$> seq 0 (length (commands d))) =
  imap (fun j c => recorded (getSpotify provider request) (i, j)
                     (externalIdToPlaylistDeviceId (externalDeviceId d)) c) (commands d).
Proof.
  intros Hd. apply list_eq. intros j.
  rewrite !list_lookup_fmap, list_lookup_imap.
  destruct (commands d !! j) as [c|] eqn:Hc.
  - rewrite lookup_seq_lt by (apply lookup_lt_is_Some; by eexists). cbn.
    unfold contribution. cbn [fst snd]. rewrite Hd. cbn. by rewrite Hc.
  - rewrite (lookup_ge_None_2 (seq _ _)); [done|].
    rewrite length_seq. by apply lookup_ge_None.
Qed.

(** X15: the order in which the provider promises settle only changes
    the order of the states: after any complete schedule the entry of a
    device request holds, up to order, exactly one status per dispatched
    command of that request, except that a [play] whose call was
    rejected contributes none. *)
Theorem states_independent_of_schedule (schedule : list CallSite)
    (i : nat) (d : DeviceRequest) :
  devices request !! i = Some d ->
  complete schedule (launch request []) ->
  exists entry,
    response (commandRequest provider schedule request []) !! i = Some entry /\
    State.externalDeviceId entry = externalDeviceId d /\
    State.components entry = ["main"] /\
    State.states entry ≡ₚ
      mjoin (imap (fun j c => recorded (getSpotify provider request) (i, j)
                                (externalIdToPlaylistDeviceId (externalDeviceId d)) c)
               (commands d)).
Proof.
  intros Hd Hcomplete.
  destruct (commandRequest_effects provider request schedule)
    as (settled & [Hnd Hmem] & Hresp & _).
  eexists. split; [by rewrite Hresp, Hd|]. split; [done|]. split; [done|].
  cbn [State.states withStates launchedEntry app].
  rewrite <- (row_contributions i d Hd).
  rewrite <- (join_filter_silent (contribution provider request)
                (fun site => ~ idle (promiseAt (launch request []) site))
                ((fun j => (i, j)) <$> seq 0 (length (commands d)))).
  - apply join_Permutation, fmap_Permutation, NoDup_Permutation.
    + by apply NoDup_filter.
    + apply NoDup_filter, NoDup_fmap_2; [by intros ?? [= ->]|apply NoDup_seq].
    + intros [i' j]. rewrite !list_elem_of_filter, Hmem, list_elem_of_fmap. cbn [fst].
      split.
      * intros (-> & _ & Hp). split; [done|]. exists j. split; [done|].
        apply elem_of_seq. split; [lia|]. cbn.
        destruct (promiseAt (launch request []) (i, j)) as [p|] eqn:Hl; [|by destruct Hp].
        apply promiseAt_launch_inv in Hl as (d' & c & Hd' & Hc & _). cbn [fst snd] in *.
        rewrite Hd in Hd'. injection Hd' as <-. apply lookup_lt_is_Some. by eexists.
      * intros (Hp & j' & [= -> ->] & _). split; [done|]. split; [|done].
        destruct (promiseAt (launch request []) (i, j')) as [[r|call resume]|] eqn:Hl;
          [by destruct Hp| |by destruct Hp].
        eapply Hcomplete, elem_of_calls_launch, Hl.
  - intros site _ Hidle. apply idle_contribution.
    by destruct (decide (idle (promiseAt (launch request []) site))).
Qed.

(** X16: whatever the schedule, a state found in the entry of a device
    request was recorded by a dispatched command of that very request
    whose provider call has settled, and it is the playback status of
    that command; commands of other requests never write to it. *)
Theorem states_come_from_own_commands (schedule : list CallSite)
    (i : nat) (entry : State.Device) (st : State.Entry) :
  response (commandRequest provider schedule request []) !! i = Some entry ->
  st ∈ State.states entry ->
  exists j d c,
    devices request !! i = Some d /\ commands d !! j = Some c /\
    (i, j) ∈ schedule /\ dispatched c = true /\
    st = playbackStatus (optimisticStatus c).
Proof.
  destruct (commandRequest_effects provider request schedule)
    as (settled & [_ Hmem] & Hresp & _).
  rewrite Hresp. destruct (devices request !! i) as [d|] eqn:Hd; [|done].
  intros [= <-]. cbn [State.states withStates launchedEntry app].
  intros (l & Hst & ([i' j] & -> & Hin)%list_elem_of_fmap)%list_elem_of_join.
  apply list_elem_of_filter in Hin as [Hi Hin]. cbn in Hi. subst i'.
  apply Hmem in Hin as [Hin _]. exists j, d.
  unfold contribution in Hst. cbn [fst snd] in Hst. rewrite Hd in Hst.
  cbn [mbind option_bind] in Hst.
  destruct (commands d !! j) as [c|] eqn:Hc; [|by apply elem_of_nil in Hst].
  cbn [mbind option_bind default] in Hst. exists c.
  unfold recorded in Hst. unfold dispatched.
  destruct (isPlay c) eqn:Hp.
  - destruct (Spotify.play _ _ _); [|by apply elem_of_nil in Hst].
    apply list_elem_of_singleton in Hst as ->. repeat split; try done.
    apply isPlay_spec in Hp as [_ Hp]. unfold optimisticStatus. by rewrite Hp.
  - destruct (tolerated c); [|by apply elem_of_nil in Hst].
    apply list_elem_of_singleton in Hst as ->. by repeat split.
Qed.

Lemma isDone_commandCallback component pid c :
  isDone (commandCallback component pid c) = negb (dispatched c).
Proof.
  unfold commandCallback, dispatched, isPlay, tolerated.
  destruct (String.eqb (capability c) "st.mediaPlayback"); [|done]. cbn.
  destruct (String.eqb (command c) "play"); [done|].
  destruct (String.eqb (command c) "pause"); [done|].
  destruct (String.eqb (command c) "fastForward"); [done|].
  by destruct (String.eqb (command c) "rewind").
Qed.

Lemma undispatched_idle :
  (forall d c, d ∈ devices request -> c ∈ commands d -> dispatched c = false) <->
  (forall site, idle (promiseAt (launch request []) site)).
Proof.
  split.
  - intros Hno site.
    destruct (promiseAt (launch request []) site) as [p|] eqn:Hp; [|done].
    apply promiseAt_launch_inv in Hp as (d & c & Hd & Hc & ->).
    rewrite commandCallback_other; [done|].
    apply (Hno d c); apply list_elem_of_lookup; by eexists.
  - intros Hidle d c [i Hd]%list_elem_of_lookup [j Hc]%list_elem_of_lookup.
    specialize (Hidle (i, j)). rewrite (promiseAt_launch_command _ _ _ _ _ Hd Hc) in Hidle.
    pose proof (isDone_commandCallback (i, "main")
                  (externalIdToPlaylistDeviceId (externalDeviceId d)) c) as Hdone.
    destruct (commandCallback _ _ c); [|done]. cbn in Hdone.
    by destruct (dispatched c).
Qed.

(** X17: a batch is fulfilled before any provider promise settles
    exactly when none of its commands is dispatched (an empty batch, empty
    command lists, unknown capabilities or commands); such a batch makes
    no provider call, and no schedule changes its response, which keeps
    one entry without state per device request. *)
Theorem undispatched_batch_is_fulfilled_at_once :
  let quiet_batch :=
    forall d c, d ∈ devices request -> c ∈ commands d -> dispatched c = false in
  (quiet_batch <->
   outcome (commandRequest provider [] request []) =
   Some (Fulfilled ((fun d => {| State.externalDeviceId := externalDeviceId d;
                                 State.components := ["main"];
                                 State.states := [] |}) <$> devices request))) /\
  (quiet_batch ->
   forall schedule,
     commandRequest provider schedule request [] = commandRequest provider [] request [] /\
     calls (commandRequest provider schedule request []) = []).
Proof.
  cbv zeta. rewrite undispatched_idle. split; [split|].
  - intros Hidle. unfold commandRequest, outcome. cbn [foldl].
    rewrite all_idle_done by done. by rewrite launch_unfold.
  - unfold commandRequest, outcome. cbn [foldl].
    destruct (rejection _); [done|]. destruct (forallb _ _) eqn:Hall; [|done].
    intros _ site. destruct (promiseAt (launch request []) site) as [p|] eqn:Hp; [|done].
    apply (done_promiseAt _ _ _ Hall) in Hp. by destruct p.
  - intros Hidle schedule. unfold commandRequest. cbn [foldl].
    rewrite run_idle_all by (intros; apply Hidle). split; [done|].
    destruct (calls (launch request [])) as [|[site call] l] eqn:Hc; [done|].
    destruct (calls_launch_pending site call) as [resume Hp];
      [rewrite Hc; apply list_elem_of_here|].
    specialize (Hidle site). by rewrite Hp in Hidle.
Qed.

Lemma length_rowCalls_from (i : nat) (row : list Promise) : forall k : nat,
  length (omap (fun '(j, p) => call ← awaited p; Some ((i, j), call))
            (imap (fun j p => (k + j, p)) row)) =
  length (List.filter (fun p => negb (isDone p)) row).
Proof.
  induction row as [|p row IH]; intros k; [done|].
  cbn [imap omap list_omap List.filter].
  rewrite (imap_ext _ (fun j p => (S k + j, p))) by (intros; unfold compose; f_equal; lia).
  destruct p as [r|call resume]; cbn; [|f_equal]; exact (IH (S k)).
Qed.

Lemma length_launchedRow_calls i h d :
  length (rowCalls i (launchedRow h d)) = length (List.filter dispatched (commands d)).
Proof.
  unfold rowCalls. etransitivity; [exact (length_rowCalls_from i (launchedRow h d) 0)|].
  unfold launchedRow. induction (commands d) as [|c l IH]; [done|].
  cbn [fmap list_fmap List.filter]. rewrite isDone_commandCallback, negb_involutive.
  destruct (dispatched c); cbn; by rewrite IH.
Qed.

Lemma length_join_imap {A B} (F : nat -> A -> list B) (G : A -> nat) (l : list A) :
  (forall i x, length (F i x) = G x) ->
  length (mjoin (imap F l)) = sum_list_with G l.
Proof.
  revert F. induction l as [|x l IH]; intros F HF; [done|].
  cbn [imap mjoin list_join sum_list_with]. rewrite length_app, HF, IH; [lia|].
  intros i y. apply HF.
Qed.

(** X18: the handler makes one provider call per dispatched command and
    no other: whatever the schedule, the number of calls is the number
    of commands of the batch that match a row of the dispatch table. *)
Theorem one_call_per_dispatched_command (schedule : list CallSite) :
  length (calls (commandRequest provider schedule request [])) =
  sum_list_with (fun d => length (List.filter dispatched (commands d))) (devices request).
Proof.
  unfold commandRequest. rewrite run_calls, launch_unfold. cbn [calls].
  apply length_join_imap. intros i d. apply length_launchedRow_calls.
Qed.

End outcomes.

(** Until the provider promise of its call has settled, the handler of
    the end-to-end scenario is not settled either. *)
Lemma pauseScenario_unsettled provider schedule :
  (0, 0) ∉ schedule ->
  outcome (commandRequest provider schedule pauseScenario []) = None.
Proof.
  intros Hnot. unfold commandRequest. rewrite run_idle_all; [done|].
  intros [[|i] [|k]] Hin; try exact I. by destruct Hnot.
Qed.

(** C5: a [pause], [fastForward] or [rewind] command of capability
    [st.mediaPlayback] records its optimistic status (paused for pause,
    playing for the other two) in the entry of its device however its
    provider call settles, and never rejects the handler: a batch whose
    [play] calls are not rejected is answered with status 200, and
    every fulfilled handler, hence every answer with status 200, carries
    that status in the entry of the device.  The scenario with the
    single device ["dev1|ctx1"] and a single [pause] is answered, once
    the provider promise has settled and not before, with that device,
    its component [main] and the state
    (st.mediaPlayback, playbackStatus, paused), for every provider. *)
Theorem tolerated_failures_are_optimistic (provider : string -> Spotify.WebApi)
    (request : Request) (i j : nat) (d : DeviceRequest) (c : Command) :
  devices request !! i = Some d ->
  commands d !! j = Some c ->
  tolerated c = true ->
  (forall pre, (i, j) ∉ pre ->
     let before := commandRequest provider pre request [] in
     let after := commandRequest provider (pre ++ [(i, j)]) request [] in
     exists entry,
       response before !! i = Some entry /\
       State.externalDeviceId entry = externalDeviceId d /\
       State.components entry = ["main"] /\
       response after =
         <[i := withStates [playbackStatus (optimisticStatus c)] entry]> (response before) /\
       rejection after = rejection before) /\
  (forall schedule, (i, j) ∈ schedule ->
     exists entry,
       response (commandRequest provider schedule request []) !! i = Some entry /\
       State.externalDeviceId entry = externalDeviceId d /\
       State.components entry = ["main"] /\
       playbackStatus (optimisticStatus c) ∈ State.states entry) /\
  (forall schedule,
     (forall site o, (site, Spotify.Play o) ∈ calls (launch request []) ->
                     Spotify.play (getSpotify provider request) site o = Fulfilled tt) ->
     complete schedule (launch request []) ->
     let final := commandRequest provider schedule request [] in
     outcome final = Some (Fulfilled (response final)) /\
     (interactionType request = CommandRequest ->
      promiseHandler provider schedule request =
      Some {| statusCode := 200; body := StatePayload (response final) |})) /\
  (forall schedule r,
     outcome (commandRequest provider schedule request []) = Some (Fulfilled r) ->
     exists entry,
       r !! i = Some entry /\
       State.externalDeviceId entry = externalDeviceId d /\
       State.components entry = ["main"] /\
       playbackStatus (optimisticStatus c) ∈ State.states entry) /\
  (forall schedule result,
     interactionType request = CommandRequest ->
     promiseHandler provider schedule request = Some result ->
     statusCode result = 200 ->
     exists r entry,
       body result = StatePayload r /\
       r !! i = Some entry /\
       State.externalDeviceId entry = externalDeviceId d /\
       State.components entry = ["main"] /\
       playbackStatus (optimisticStatus c) ∈ State.states entry) /\
  (forall provider' schedule, (0, 0) ∈ schedule ->
     promiseHandler provider' schedule pauseScenario =
     Some {| statusCode := 200;
             body := StatePayload
                       [ {| State.externalDeviceId := "dev1|ctx1";
                            State.components := ["main"];
                            State.states := [playbackStatus "paused"] |} ] |}) /\
  (forall provider' schedule, (0, 0) ∉ schedule ->
     promiseHandler provider' schedule pauseScenario = None).
Proof.
  intros Hd Hc Htol.
  assert (Hstep : forall pre, (i, j) ∉ pre ->
     exists extra,
       response (commandRequest provider pre request []) !! i =
         Some (withStates extra (launchedEntry d)) /\
       response (commandRequest provider (pre ++ [(i, j)]) request []) =
         <[i := withStates [playbackStatus (optimisticStatus c)]
                  (withStates extra (launchedEntry d))]>
           (response (commandRequest provider pre request [])) /\
       rejection (commandRequest provider (pre ++ [(i, j)]) request []) =
         rejection (commandRequest provider pre request [])).
  { intros pre Hpre.
    destruct (commandRequest_entry provider request pre i d Hd) as [extra Hentry].
    exists extra. split; [exact Hentry|].
    pose proof (promiseAt_before provider request pre i j d c Hd Hc Hpre) as Hp.
    destruct (commandCallback_tolerated (i, "main")
                (externalIdToPlaylistDeviceId (externalDeviceId d)) c Htol) as [call Hcb].
    rewrite Hcb in Hp.
    rewrite commandRequest_snoc, (settle_pending _ _ _ _ _ Hp).
    set (before := commandRequest provider pre request []) in *.
    cbn [fst snd response rejection]. split; [|by destruct (rejection before)].
    rewrite addState_alter. apply list_eq. intros k.
    rewrite list_lookup_alter, list_lookup_insert.
    destruct (decide (i = k)) as [<-|Hne].
    - rewrite decide_True; [by rewrite Hentry|].
      split; [done|]. apply lookup_lt_is_Some. by eexists.
    - rewrite decide_False; [done|]. by intros [? _]. }
  assert (Hrecorded : forall schedule, (i, j) ∈ schedule ->
     exists entry,
       response (commandRequest provider schedule request []) !! i = Some entry /\
       State.externalDeviceId entry = externalDeviceId d /\
       State.components entry = ["main"] /\
       playbackStatus (optimisticStatus c) ∈ State.states entry).
  { intros schedule (pre & post & -> & Hpre)%list_elem_of_split_l.
    destruct (Hstep pre Hpre) as (extra & He & Hr & _).
    rewrite commandRequest_cons_after.
    destruct (run_grows (getSpotify provider request) post i
                (commandRequest provider (pre ++ [(i, j)]) request [])
                (withStates [playbackStatus (optimisticStatus c)]
                   (withStates extra (launchedEntry d)))) as [extra' Hfinal].
    - unfold commandRequest. apply run_rowsAppend, rowsAppend_launch.
    - etransitivity; [exact (f_equal (fun r : list State.Device => r !! i) Hr)|].
      apply list_lookup_insert_eq, lookup_lt_is_Some. by eexists.
    - eexists. split; [exact Hfinal|]. split; [done|]. split; [done|].
      cbn. rewrite !elem_of_app, list_elem_of_singleton. by left; right. }
  assert (Hfulfilled : forall schedule r,
     outcome (commandRequest provider schedule request []) = Some (Fulfilled r) ->
     exists entry,
       r !! i = Some entry /\
       State.externalDeviceId entry = externalDeviceId d /\
       State.components entry = ["main"] /\
       playbackStatus (optimisticStatus c) ∈ State.states entry).
  { intros schedule r Hout.
    destruct (outcome_fulfilled_inv provider request schedule r Hout) as [Hcomplete ->].
    apply Hrecorded.
    destruct (commandCallback_tolerated (i, "main")
                (externalIdToPlaylistDeviceId (externalDeviceId d)) c Htol) as [call Hcb].
    eapply Hcomplete, elem_of_calls_launch.
    rewrite (promiseAt_launch_command request i j d c Hd Hc). by rewrite Hcb. }
  split; [|split; [|split; [|split; [|split; [|split]]]]].
  - intros pre Hpre. cbv zeta. destruct (Hstep pre Hpre) as (extra & He & Hr & Hrej).
    by exists (withStates extra (launchedEntry d)).
  - exact Hrecorded.
  - intros schedule Hplays Hcomplete. cbv zeta.
    pose proof (outcome_fulfilled provider request schedule Hplays Hcomplete) as Ho.
    split; [done|]. intros Hi. unfold promiseHandler, lambda. by rewrite Hi, Ho.
  - exact Hfulfilled.
  - intros schedule result Hi. unfold promiseHandler, lambda. rewrite Hi.
    destruct (outcome _) as [[r|e]|] eqn:Hout; [| |done].
    + intros [= <-] _. destruct (Hfulfilled schedule r Hout) as [entry He].
      by exists r, entry.
    + by intros [= <-].
  - intros provider' schedule Hin. unfold promiseHandler, lambda. cbn [interactionType pauseScenario].
    by rewrite (pauseScenario_settled provider' schedule Hin).
  - intros provider' schedule Hnot. unfold promiseHandler, lambda.
    cbn [interactionType pauseScenario].
    by rewrite (pauseScenario_unsettled provider' schedule Hnot).
Qed.

Lemma tolerated_failures_are_optimistic_witness :
  exists entry,
    [ {| State.externalDeviceId := "dev1|ctx1"; State.components := ["main"];
         State.states := [playbackStatus "paused"] |} ] !! 0 = Some entry /\
    State.externalDeviceId entry = "dev1|ctx1" /\
    State.components entry = ["main"] /\
    playbackStatus "paused" ∈ State.states entry.
Proof.
  apply (tolerated_failures_are_optimistic (failingProvider true) pauseScenario 0 0
           {| externalDeviceId := "dev1|ctx1"; commands := [pauseCommand] |} pauseCommand
           eq_refl eq_refl eq_refl) with (schedule := [(0, 0)]).
  reflexivity.
Defined.

Lemma handler_rejected_by_first_failed_play_witness :
  outcome (commandRequest (failingProvider true) [(0, 1); (0, 0)] sampleBatch []) =
  Some (Rejected "play failed").
Proof.
  apply (handler_rejected_by_first_failed_play (failingProvider true) sampleBatch
           [(0, 1); (0, 0)] "play failed") with (pre := [(0, 1)]) (site := (0, 0)) (post := []);
    try reflexivity.
  intros site' ->%list_elem_of_singleton. reflexivity.
Defined.

Lemma handler_fulfilled_only_when_settled_witness :
  complete [(0, 0)] (launch pauseScenario []).
Proof.
  apply (handler_fulfilled_only_when_settled (failingProvider true) pauseScenario [(0, 0)]
           [ {| State.externalDeviceId := "dev1|ctx1"; State.components := ["main"];
                State.states := [playbackStatus "paused"] |} ]).
  reflexivity.
Defined.

Lemma states_independent_of_schedule_witness :
  exists entry,
    response (commandRequest (failingProvider true) [(0, 1); (0, 0)] sampleBatch []) !! 0
      = Some entry /\
    State.externalDeviceId entry = "dev1|ctx1" /\
    State.components entry = ["main"] /\
    State.states entry ≡ₚ [playbackStatus "paused"].
Proof.
  apply (states_independent_of_schedule (failingProvider true) sampleBatch [(0, 1); (0, 0)] 0
           {| externalDeviceId := "dev1|ctx1";
              commands := [playCommand; pauseCommand; dimCommand] |}).
  - reflexivity.
  - intros site call Hin. vm_compute in Hin.
    repeat (apply elem_of_cons in Hin as [Hin|Hin];
            [injection Hin as -> _; repeat constructor|]).
    by apply elem_of_nil in Hin.
Defined.

Lemma states_come_from_own_commands_witness :
  exists j d c,
    devices sampleBatch !! 0 = Some d /\ commands d !! j = Some c /\
    (0, j) ∈ [(0, 1)] /\ dispatched c = true /\
    playbackStatus "paused" = playbackStatus (optimisticStatus c).
Proof.
  apply (states_come_from_own_commands (failingProvider true) sampleBatch [(0, 1)] 0
           {| State.externalDeviceId := "dev1|ctx1"; State.components := ["main"];
              State.states := [playbackStatus "paused"] |} (playbackStatus "paused")).
  - reflexivity.
  - apply list_elem_of_here.
Defined.

Lemma undispatched_batch_is_fulfilled_at_once_witness :
  calls (commandRequest (failingProvider true) [(0, 0)]
           {| interactionType := CommandRequest; authentication := {| token := "token" |};
              devices := [ {| externalDeviceId := "dev1|ctx1"; commands := [dimCommand] |} ] |}
           []) = [].
Proof.
  apply (undispatched_batch_is_fulfilled_at_once (failingProvider true)
           {| interactionType := CommandRequest; authentication := {| token := "token" |};
              devices := [ {| externalDeviceId := "dev1|ctx1"; commands := [dimCommand] |} ] |}).
  intros d c ->%list_elem_of_singleton ->%list_elem_of_singleton. reflexivity.
Defined.
